(** * matter2mqtt: a shallow embedding of the bridge synchronisation engine

    The development follows the Python sources file by file:
    - [constants.py], [models.py], [topics.py]: constants, records, topic names;
    - [matter_helpers.py]: attribute-key parsing and endpoint extraction;
    - [mqtt_bridge.py]: the message callback that feeds the command queue;
    - [matter_commander.py]: connect, reconnect-and-retry, [set_onoff];
    - [matter2mqtt_app.py]: [refresh_snapshot], the command consumer, [stop].

    Python strings are modelled as [string] restricted to the ASCII range
    (the classification of spaces, digits and letters below is Python's on
    that range).  Python integers are [Z].  Dictionaries received from JSON
    are association lists in insertion order; the two caches of the
    application, which are only read and written by key, are [gmap]s. *)

From Stdlib Require Import ZArith Ascii DecimalString DecimalZ.
From Stdlib Require Import Floats.SpecFloat.
From stdpp Require Import gmap strings list fin_maps sorting.

Local Open Scope Z_scope.

(** ** Python built-ins used by the sources *)

(** [c.isspace()] on the ASCII range: TAB..CR, FS..US and the blank. *)
Definition py_isspace (c : ascii) : bool :=
  match c with
  | "009" | "010" | "011" | "012" | "013"
  | "028" | "029" | "030" | "031" | " " => true
  | _ => false
  end%char.

(** The value of a decimal digit, [None] for any other character. *)
Definition py_digit (c : ascii) : option Z :=
  let n := nat_of_ascii c in
  if ((48 <=? n) && (n <=? 57))%nat then Some (Z.of_nat n - 48) else None.

Fixpoint py_lstrip (s : string) : string :=
  match s with
  | EmptyString => EmptyString
  | String c s' => if py_isspace c then py_lstrip s' else s
  end.

Fixpoint py_rstrip (s : string) : string :=
  match s with
  | EmptyString => EmptyString
  | String c s' =>
      match py_rstrip s' with
      | EmptyString => if py_isspace c then EmptyString else String c EmptyString
      | r => String c r
      end
  end.

(** [s.strip()] *)
Definition py_strip (s : string) : string := py_rstrip (py_lstrip s).

Definition py_upper_char (c : ascii) : ascii :=
  let n := nat_of_ascii c in
  if ((97 <=? n) && (n <=? 122))%nat then ascii_of_nat (n - 32) else c.

(** [s.upper()] *)
Fixpoint py_upper (s : string) : string :=
  match s with
  | EmptyString => EmptyString
  | String c s' => String (py_upper_char c) (py_upper s')
  end.

(** [s.split(sep, maxsplit)] for a one-character separator; [None] is
    the unbounded split. *)
Fixpoint py_split (sep : ascii) (maxsplit : option nat) (s : string)
  : list string :=
  match maxsplit with
  | Some O => [s]
  | _ =>
      match s with
      | EmptyString => [EmptyString]
      | String c s' =>
          if Ascii.eqb c sep
          then EmptyString :: py_split sep (pred <$> maxsplit) s'
          else match py_split sep maxsplit s' with
               | p :: ps => String c p :: ps
               | [] => [String c EmptyString]
               end
      end
  end.

(** [s.startswith(p)] *)
Fixpoint py_startswith (p s : string) : bool :=
  match p, s with
  | EmptyString, _ => true
  | String a p', String b s' => Ascii.eqb a b && py_startswith p' s'
  | String _ _, EmptyString => false
  end.

(** [sub in s] *)
Fixpoint py_contains (sub s : string) : bool :=
  py_startswith sub s ||
  match s with
  | EmptyString => false
  | String _ s' => py_contains sub s'
  end.

(** The digit part of an integer literal: decimal digits, with single
    underscores allowed between two digits. *)
Fixpoint py_digits (acc : Z) (after_digit : bool) (s : string) : option Z :=
  match s with
  | EmptyString => if after_digit then Some acc else None
  | String c s' =>
      match py_digit c with
      | Some d => py_digits (10 * acc + d) true s'
      | None =>
          if Ascii.eqb c "_" && after_digit
          then py_digits acc false s'
          else None
      end
  end.

(** White space for [int()].  On an ASCII string [int] skips, at the two
    ends, the characters of C's [isspace]: TAB..CR and the blank.  FS..US,
    which [str.strip] removes, are no white space for it. *)
Definition int_isspace (c : ascii) : bool :=
  match c with
  | "009" | "010" | "011" | "012" | "013" | " " => true
  | _ => false
  end%char.

Fixpoint int_lstrip (s : string) : string :=
  match s with
  | EmptyString => EmptyString
  | String c s' => if int_isspace c then int_lstrip s' else s
  end.

Fixpoint int_rstrip (s : string) : string :=
  match s with
  | EmptyString => EmptyString
  | String c s' =>
      match int_rstrip s' with
      | EmptyString => if int_isspace c then EmptyString else String c EmptyString
      | r => String c r
      end
  end.

Definition int_strip (s : string) : string := int_rstrip (int_lstrip s).



(** [int(s)] for an ASCII string: white space at the two ends is dropped,
    one sign is allowed, then come the digits.  [None] stands for
    [ValueError].
    (The interpreter's configurable bound on the number of digits that
    [int] and [str] convert, 4300 by default in recent versions, is not
    modelled: the integers at hand are taken to be shorter.) *)
Definition py_int_of_string (s : string) : option Z :=
  match int_strip s with
  | EmptyString => None
  | String c body =>
      if Ascii.eqb c "+" then py_digits 0 false body
      else if Ascii.eqb c "-" then Z.opp <$> py_digits 0 false body
      else py_digits 0 false (String c body)
  end.

(** [str(n)] for an integer. *)
Definition py_str (n : Z) : string := NilZero.string_of_int (Z.to_int n).

(** ** Values, exceptions and results *)

(** A value as [json.loads] produces it.  A dictionary keeps its items in
    insertion order. *)
#[local] Set Warnings "-register-all".
Inductive PyValue : Type :=
| PyNone
| PyBool (b : bool)
| PyInt (n : Z)
| PyFloat (f : spec_float)
| PyStr (s : string)
| PyList (l : list PyValue)
| PyDict (items : list (string * PyValue)).

(** An exception: the name of its class and the text of [str(e)]. *)
Record Exn : Type := mkExn { exn_type : string; exn_msg : string }.

Inductive Result (A : Type) : Type :=
| Ok (a : A)
| Raise (e : Exn).
Arguments Ok {A} a.
Arguments Raise {A} e.

(** [type(v).__name__] *)
Definition py_type_name (v : PyValue) : string :=
  match v with
  | PyNone => "NoneType"
  | PyBool _ => "bool"
  | PyInt _ => "int"
  | PyFloat _ => "float"
  | PyStr _ => "str"
  | PyList _ => "list"
  | PyDict _ => "dict"
  end.

(** [repr(s)] for an ASCII string: the quote is the apostrophe, unless the
    string holds an apostrophe and no double quote; the quote and the
    backslash are escaped, TAB, LF and CR are written [\t], [\n], [\r],
    the other control characters [\xhh]. *)
Definition hex_digit (n : nat) : ascii :=
  ascii_of_nat (if (n <? 10)%nat then 48 + n else 87 + n).

Definition hex2 (c : ascii) : string :=
  let n := nat_of_ascii c in
  String (hex_digit (n / 16)) (String (hex_digit (n mod 16)) EmptyString).

Definition repr_quote (s : string) : ascii :=
  if py_contains "'" s && negb (py_contains (String "034"%char EmptyString) s)
  then "034"%char else "'"%char.

Definition repr_char (quote c : ascii) : string :=
  let n := nat_of_ascii c in
  if Ascii.eqb c quote || Ascii.eqb c "\"
  then String "\" (String c EmptyString)
  else if Ascii.eqb c "009" then "\t"
  else if Ascii.eqb c "010" then "\n"
  else if Ascii.eqb c "013" then "\r"
  else if (n <? 32)%nat || (n =? 127)%nat then "\x" +:+ hex2 c
  else String c EmptyString.

Fixpoint repr_body (quote : ascii) (s : string) : string :=
  match s with
  | EmptyString => EmptyString
  | String c s' => repr_char quote c +:+ repr_body quote s'
  end.

Definition py_repr (s : string) : string :=
  let q := repr_quote s in
  String q (repr_body q s +:+ String q EmptyString).

(** The exceptions carry the texts of CPython 3.10 to 3.13. *)
Definition TypeError (msg : string) : Exn := mkExn "TypeError" msg.
Definition ValueError (msg : string) : Exn := mkExn "ValueError" msg.
Definition AttributeError (msg : string) : Exn := mkExn "AttributeError" msg.
Definition OverflowError (msg : string) : Exn := mkExn "OverflowError" msg.
Definition RuntimeError (msg : string) : Exn := mkExn "RuntimeError" msg.

Definition result_bind {A B} (r : Result A) (k : A -> Result B) : Result B :=
  match r with
  | Ok a => k a
  | Raise e => Raise e
  end.

(** [bool(v)] *)
Definition py_bool (v : PyValue) : bool :=
  match v with
  | PyNone => false
  | PyBool b => b
  | PyInt n => negb (n =? 0)
  | PyFloat (S754_zero _) => false
  | PyFloat _ => true
  | PyStr EmptyString => false
  | PyStr _ => true
  | PyList [] => false
  | PyList _ => true
  | PyDict [] => false
  | PyDict _ => true
  end.

(** The errors of [int(v)]: for a value of the wrong type, and for a
    string that is no literal, whose [repr], cut at 200 characters, ends
    the text. *)
Definition int_type_error (v : PyValue) : Exn :=
  TypeError ("int() argument must be a string, a bytes-like object or a real number, not '"
             +:+ py_type_name v +:+ "'").

Definition int_value_error (s : string) : Exn :=
  ValueError ("invalid literal for int() with base 10: "
              +:+ String.substring 0 200 (py_repr s)).

(** The error of [v.name] for a method that [v] does not have. *)
Definition no_attribute (v : PyValue) (name : string) : Exn :=
  AttributeError ("'" +:+ py_type_name v +:+ "' object has no attribute '"
                  +:+ name +:+ "'").

(** [int(v)] *)
Definition py_int (v : PyValue) : Result Z :=
  match v with
  | PyNone => Raise (int_type_error v)
  | PyBool b => Ok (if b then 1 else 0)
  | PyInt n => Ok n
  | PyFloat (S754_zero _) => Ok 0
  | PyFloat (S754_infinity _) =>
      Raise (OverflowError "cannot convert float infinity to integer")
  | PyFloat S754_nan => Raise (ValueError "cannot convert float NaN to integer")
  | PyFloat (S754_finite neg m e) =>
      let mag := match e with
                 | Z0 => Zpos m
                 | Zpos p => Zpos m * 2 ^ Zpos p
                 | Zneg p => Zpos m / 2 ^ Zpos p
                 end in
      Ok (if neg then - mag else mag)
  | PyStr s =>
      match py_int_of_string s with
      | Some n => Ok n
      | None => Raise (int_value_error s)
      end
  | PyList _ | PyDict _ => Raise (int_type_error v)
  end.

(** [d.get(key, default)] on the items of a dictionary. *)
Fixpoint dict_get (items : list (string * PyValue)) (key : string)
  (default : PyValue) : PyValue :=
  match items with
  | [] => default
  | (k, v) :: rest => if String.eqb k key then v else dict_get rest key default
  end.

(** [v.get(key, default)]: only a dictionary has the method. *)
Definition py_get (v : PyValue) (key : string) (default : PyValue)
  : Result PyValue :=
  match v with
  | PyDict items => Ok (dict_get items key default)
  | _ => Raise (no_attribute v "get")
  end.

(** [v.items()] *)
Definition py_items (v : PyValue) : Result (list (string * PyValue)) :=
  match v with
  | PyDict items => Ok items
  | _ => Raise (no_attribute v "items")
  end.

(** ** constants.py *)

Definition ONOFF_CLUSTER_ID : Z := 6.
Definition ONOFF_ATTRIBUTE_ID : Z := 0.
Definition HA_DISCOVERY_DEVICE_CLASS : string := "light".
(** [DEVICE_COMMAND_TIMEOUT = 15.0] *)
Definition DEVICE_COMMAND_TIMEOUT : spec_float := S754_finite false 15 0.

(** ** models.py *)

Record EndpointInfo : Type := mkEndpointInfo {
  node_id : Z;
  endpoint : Z;
  available : bool;
  onoff : option bool          (* None if unknown *)
}.

Record MqttCommand : Type := mkMqttCommand {
  cmd_node_id : Z;
  cmd_endpoint : Z;
  action : string              (* "on" | "off" | "toggle" *)
}.

(** ** topics.py *)

Definition topic_state (node_id endpoint : Z) : string :=
  "matter/" +:+ py_str node_id +:+ "/" +:+ py_str endpoint +:+ "/state".

Definition topic_available (node_id endpoint : Z) : string :=
  "matter/" +:+ py_str node_id +:+ "/" +:+ py_str endpoint +:+ "/available".

Definition ha_discovery_topic (node_id endpoint : Z) : string :=
  "homeassistant/" +:+ HA_DISCOVERY_DEVICE_CLASS +:+ "/matter_" +:+
  py_str node_id +:+ "_" +:+ py_str endpoint +:+ "/config".

(** The command topic, as [publish_ha_discovery] writes it and
    [_on_message] reads it: [matter/<node>/<ep>/set]. *)
Definition topic_set (node_id endpoint : Z) : string :=
  "matter/" +:+ py_str node_id +:+ "/" +:+ py_str endpoint +:+ "/set".

(** ** matter_helpers.py *)

(** [_parse_attr_key]: [None] when the unpacking or one of the three
    conversions raises. *)
Definition _parse_attr_key (key : string) : option (Z * Z * Z) :=
  match py_split "/" (Some 2%nat) key with
  | [ep_s; cl_s; at_s] =>
      match py_int_of_string ep_s, py_int_of_string cl_s, py_int_of_string at_s with
      | Some ep, Some cl, Some at_ => Some (ep, cl, at_)
      | _, _, _ => None
      end
  | _ => None
  end.

(** The first three statements of [extract_onoff_endpoints_from_node]:
    the node identifier, the availability flag and the attribute items. *)
Definition node_fields (node : PyValue)
  : Result (Z * bool * list (string * PyValue)) :=
  result_bind (py_get node "node_id" PyNone) (fun nid_v =>
  result_bind (py_int nid_v) (fun nid =>
  result_bind (py_get node "available" (PyBool false)) (fun av_v =>
  result_bind (py_get node "attributes" (PyDict [])) (fun at_v =>
  let attrs := if py_bool at_v then at_v else PyDict [] in
  result_bind (py_items attrs) (fun items =>
  Ok (nid, py_bool av_v, items)))))).

(** One turn of the loop over [attrs.items()], on the pair
    [(endpoints_with_onoff, onoff_state_by_ep)]. *)
Definition scan_attr (acc : gset Z * gmap Z bool) (kv : string * PyValue)
  : gset Z * gmap Z bool :=
  let '(endpoints_with_onoff, onoff_state_by_ep) := acc in
  match _parse_attr_key kv.1 with
  | None => acc
  | Some (ep, cl, at_) =>
      if cl =? ONOFF_CLUSTER_ID then
        ({[ep]} ∪ endpoints_with_onoff,
         if at_ =? ONOFF_ATTRIBUTE_ID
         then <[ep := py_bool kv.2]> onoff_state_by_ep
         else onoff_state_by_ep)
      else acc
  end.

Definition scan_attrs (items : list (string * PyValue)) : gset Z * gmap Z bool :=
  fold_left scan_attr items (∅, ∅).

(** [sorted(s)] for a set of integers. *)
Definition py_sorted (s : gset Z) : list Z := merge_sort Z.le (elements s).

Definition extract_onoff_endpoints_from_node (node : PyValue)
  : Result (list EndpointInfo) :=
  result_bind (node_fields node) (fun '(nid, av, items) =>
  let '(endpoints_with_onoff, onoff_state_by_ep) := scan_attrs items in
  Ok ((fun ep => mkEndpointInfo nid ep av (onoff_state_by_ep !! ep))
        <$> py_sorted endpoints_with_onoff)).

Definition snapshot (nid : Z) (av : bool) (attrs : list (string * PyValue))
  : PyValue :=
  PyDict [("node_id", PyInt nid); ("available", PyBool av);
          ("attributes", PyDict attrs)].


(** ** Auxiliary notions used in the statements *)

(** Number of occurrences of a character in a string. *)
Fixpoint count_sep (sep : ascii) (s : string) : nat :=
  match s with
  | EmptyString => 0
  | String c s' => (if Ascii.eqb c sep then 1 else 0) + count_sep sep s'
  end%nat.

(** [sep in s] for a character. *)
Fixpoint has_char (sep : ascii) (s : string) : bool :=
  match s with
  | EmptyString => false
  | String c s' => Ascii.eqb c sep || has_char sep s'
  end.


(** A key is malformed when it does not have exactly three parts between
    slashes, or when one of its parts is not an integer literal. *)
Definition malformed_key (key : string) : Prop :=
  let parts := py_split "/" None key in
  length parts <> 3%nat \/ exists p, p ∈ parts /\ py_int_of_string p = None.


(** ** The world: the objects of the application and the external calls

    The bridge talks to three collaborators (the MQTT client, the raw
    WebSocket client and the Matter client).  Every call that leaves the
    program is recorded, in order, in a trace; whether such a call raises is
    decided by the environment. *)

Inductive Event : Type :=
| EvPublish (topic payload : string)     (* MqttBridge.publish_retained *)
| EvSnapshot                             (* MatterWS.send_command("start_listening") *)
| EvNewSession                           (* aiohttp.ClientSession() *)
| EvNewClient                            (* MatterClient(ws_url, session) *)
| EvClientConnect                        (* client.connect() *)
| EvClientDisconnect                     (* client.disconnect() *)
| EvSend (node_id endpoint : Z) (action : string) (timeout : spec_float)
                                         (* wait_for(client.send_device_command(..), timeout) *)
| EvSessionClose                         (* MatterCommander.session.close() *)
| EvSleep (seconds : Z)                  (* asyncio.sleep *)
| EvTaskCancel (name : string)           (* t.cancel() *)
| EvTaskAwait (name : string)            (* await t *)
| EvMqttLoopStop                         (* mqtt client.loop_stop() *)
| EvMqttDisconnect                       (* mqtt client.disconnect() *)
| EvWsClose                              (* MatterWS.ws.close() *)
| EvWsSessionClose.                      (* MatterWS.session.close() *)

(** The environment.  The answer to an external call may depend on the call
    and on how many calls were made before it. *)
Record Env : Type := mkEnv {
  matter_client_installed : bool;        (* MatterClient and Clusters imported *)
  snapshot_reply : nat -> Result PyValue;(* the frame answered to start_listening *)
  call_raises : Event -> nat -> option Exn
}.

Record World : Type := mkWorld {
  running : bool;                        (* Matter2MQTT.running *)
  last_state : gmap (Z * Z) bool;        (* Matter2MQTT.last_state *)
  last_avail : gmap (Z * Z) bool;        (* Matter2MQTT.last_avail *)
  cmd_queue : list MqttCommand;          (* Matter2MQTT.cmd_queue *)
  tasks : list string;                   (* Matter2MQTT._tasks, [] when unset *)
  client : option nat;                   (* MatterCommander.client *)
  session : option bool;                 (* MatterCommander.session, with .closed *)
  ws_open : bool;                        (* MatterWS.ws is set *)
  ws_session : bool;                     (* MatterWS.session is set *)
  trace : list Event
}.

Definition set_running (b : bool) (w : World) : World :=
  mkWorld b (last_state w) (last_avail w) (cmd_queue w) (tasks w) (client w)
          (session w) (ws_open w) (ws_session w) (trace w).
Definition set_last_state (m : gmap (Z * Z) bool) (w : World) : World :=
  mkWorld (running w) m (last_avail w) (cmd_queue w) (tasks w) (client w)
          (session w) (ws_open w) (ws_session w) (trace w).
Definition set_last_avail (m : gmap (Z * Z) bool) (w : World) : World :=
  mkWorld (running w) (last_state w) m (cmd_queue w) (tasks w) (client w)
          (session w) (ws_open w) (ws_session w) (trace w).
Definition set_cmd_queue (q : list MqttCommand) (w : World) : World :=
  mkWorld (running w) (last_state w) (last_avail w) q (tasks w) (client w)
          (session w) (ws_open w) (ws_session w) (trace w).
Definition set_client (c : option nat) (w : World) : World :=
  mkWorld (running w) (last_state w) (last_avail w) (cmd_queue w) (tasks w) c
          (session w) (ws_open w) (ws_session w) (trace w).
Definition set_session (s : option bool) (w : World) : World :=
  mkWorld (running w) (last_state w) (last_avail w) (cmd_queue w) (tasks w)
          (client w) s (ws_open w) (ws_session w) (trace w).
Definition set_trace (t : list Event) (w : World) : World :=
  mkWorld (running w) (last_state w) (last_avail w) (cmd_queue w) (tasks w)
          (client w) (session w) (ws_open w) (ws_session w) t.

(** [Matter2MQTT.__init__] *)
Definition init_world : World :=
  mkWorld true ∅ ∅ [] [] None None false false [].

(** ** A state-and-exception monad for the methods *)

Definition M (A : Type) : Type := World -> Result A * World.

Definition ret {A} (a : A) : M A := fun w => (Ok a, w).

Definition bind {A B} (m : M A) (k : A -> M B) : M B :=
  fun w => match m w with
           | (Ok a, w') => k a w'
           | (Raise e, w') => (Raise e, w')
           end.

Definition raise {A} (e : Exn) : M A := fun w => (Raise e, w).

Definition lift {A} (r : Result A) : M A := fun w => (r, w).

Definition gets {A} (f : World -> A) : M A := fun w => (Ok (f w), w).

Definition modify (f : World -> World) : M unit := fun w => (Ok tt, f w).

(** [try: body  except Exception as e: handler(e)] *)
Definition try_except {A} (body : M A) (handler : Exn -> M A) : M A :=
  fun w => match body w with
           | (Ok a, w') => (Ok a, w')
           | (Raise e, w') => handler e w'
           end.

(** [try: body  finally: final] *)
Definition try_finally {A} (body : M A) (final : M unit) : M A :=
  fun w => match body w with
           | (r, w') =>
               match final w' with
               | (Ok _, w'') => (r, w'')
               | (Raise e, w'') => (Raise e, w'')
               end
           end.

Declare Scope m_scope.
Delimit Scope m_scope with M.
Notation "x <~ c1 ;; c2" := (bind c1 (fun x => c2))
  (at level 100, c1 at next level, right associativity) : m_scope.
Notation "c1 ;;> c2" := (bind c1 (fun _ => c2))
  (at level 100, right associativity) : m_scope.
Local Open Scope m_scope.

(** [for x in l: body(x)] *)
Fixpoint for_each {A} (l : list A) (body : A -> M unit) : M unit :=
  match l with
  | [] => ret tt
  | x :: rest => body x ;;> for_each rest body
  end.

Definition when (b : bool) (m : M unit) : M unit := if b then m else ret tt.

(** A call that cannot raise. *)
Definition emit (ev : Event) : M unit :=
  modify (fun w => set_trace (trace w ++ [ev]) w).

(** ** mqtt_bridge.py *)

Record MqttMessage : Type := mkMqttMessage {
  msg_topic : string;
  msg_payload : option string      (* bytes, or None *)
}.

(** [publish_retained]; the client's [publish] does not raise. *)
Definition publish_retained (topic payload : string) : M unit :=
  emit (EvPublish topic payload).

Definition str_in (s : string) (l : list string) : bool :=
  existsb (String.eqb s) l.

(** The chain of [if payload in (...)] of [_on_message]. *)
Definition payload_action (payload : string) : option string :=
  if str_in payload ["ON"; "1"; "TRUE"] then Some "on"
  else if str_in payload ["OFF"; "0"; "FALSE"] then Some "off"
  else if str_in payload ["TOGGLE"; "T"] then Some "toggle"
  else None.

(** [(msg.payload or b'').decode("utf-8", errors="replace").strip().upper()],
    on the bytes of the payload.  On ASCII bytes the decoding changes
    nothing and [strip] and [upper] are the ASCII ones below; what the
    three calls do to other bytes (replacement characters, white space
    and case pairs outside ASCII) is not modelled. *)
Definition normalize_payload (p : option string) : string :=
  py_upper (py_strip (default EmptyString p)).

(** [loop.call_soon_threadsafe(cmd_queue.put_nowait, cmd)]: the command
    joins the tail of the queue. *)
Definition enqueue (cmd : MqttCommand) : M unit :=
  modify (fun w => set_cmd_queue (cmd_queue w ++ [cmd]) w).

(** The body of the [try] of [_on_message]. *)
Definition on_message_body (msg : MqttMessage) : M unit :=
  let topic := msg_topic msg in
  let payload := normalize_payload (msg_payload msg) in
  match py_split "/" None topic with
  | [p0; p1; p2; p3] =>
      if negb (String.eqb p0 "matter") || negb (String.eqb p3 "set")
      then ret tt
      else
        node <~ lift (py_int (PyStr p1)) ;;
        ep <~ lift (py_int (PyStr p2)) ;;
        match payload_action payload with
        | Some a => enqueue (mkMqttCommand node ep a)
        | None => ret tt
        end
  | _ => ret tt
  end.

Definition _on_message (msg : MqttMessage) : M unit :=
  try_except (on_message_body msg) (fun _ => ret tt).

Section Bridge.

Variable env : Env.

(** A call that may raise: the attempt is recorded, then the environment
    decides. *)
Definition external (ev : Event) : M unit :=
  fun w =>
    let w' := set_trace (trace w ++ [ev]) w in
    match call_raises env ev (length (trace w)) with
    | None => (Ok tt, w')
    | Some e => (Raise e, w')
    end.

(** ** matter_ws.py *)

(** [MatterWS.snapshot_nodes] *)
Definition snapshot_nodes : M (list PyValue) :=
  fun w =>
    let w' := set_trace (trace w ++ [EvSnapshot]) w in
    match snapshot_reply env (length (trace w)) with
    | Raise e => (Raise e, w')
    | Ok resp =>
        match py_get resp "result" (PyList []) with
        | Raise e => (Raise e, w')
        | Ok (PyList nodes) => (Ok nodes, w')
        | Ok _ => (Ok [], w')
        end
    end.

(** [MatterWS.close] *)
Definition ws_close : M unit :=
  o <~ gets ws_open ;;
  when o (external EvWsClose) ;;>
  s <~ gets ws_session ;;
  when s (external EvWsSessionClose).

(** [MqttBridge.close] *)
Definition mqtt_close : M unit :=
  try_finally (external EvMqttLoopStop) (external EvMqttDisconnect).

(** ** matter_commander.py

    The lock of [MatterCommander] serialises coroutines of the one event
    loop; a single call is modelled, so taking it has no effect. *)

(** [MatterCommander.connect] *)
Definition connect : M unit :=
  if negb (matter_client_installed env)
  then raise (RuntimeError "MatterClient/Clusters not installed. Install matter-server package.")
  else
    s <~ gets session ;;
    when (match s with None => true | Some closed => closed end)
         (emit EvNewSession ;;> modify (set_session (Some false))) ;;>
    h <~ gets (fun w => length (trace w)) ;;
    emit EvNewClient ;;>
    modify (set_client (Some h)) ;;>
    external EvClientConnect.

(** [MatterCommander.ensure_connected] *)
Definition ensure_connected : M unit :=
  c <~ gets client ;;
  match c with
  | None => connect
  | Some _ => ret tt
  end.

(** [MatterCommander.close] *)
Definition commander_close : M unit :=
  try_finally
    (c <~ gets client ;;
     when (bool_decide (is_Some c)) (external EvClientDisconnect))
    (modify (set_client None) ;;>
     s <~ gets session ;;
     when (match s with Some false => true | _ => false end)
          (external EvSessionClose) ;;>
     modify (set_session None)).

(** The test of the [except] clause of [set_onoff]. *)
Definition is_connection_loss (e : Exn) : bool :=
  py_contains "Not connected" (exn_msg e) || py_contains "InvalidState" (exn_type e).

(** [MatterCommander._reconnect_and_retry]; the command object is stood
    for by the action it was built from. *)
Definition _reconnect_and_retry (node ep : Z) (act : string)
  (timeout : spec_float) : M unit :=
  try_except
    (c <~ gets client ;;
     when (bool_decide (is_Some c)) (external EvClientDisconnect))
    (fun _ => ret tt) ;;>
  modify (set_client None) ;;>
  connect ;;>
  external (EvSend node ep act timeout).

(** [MatterCommander.set_onoff] *)
Definition set_onoff (node ep : Z) (act : string) (timeout : spec_float)
  : M unit :=
  ensure_connected ;;>
  c <~ gets client ;;
  match c with
  | None => raise (RuntimeError "Matter client not connected")
  | Some _ =>
      if negb (str_in act ["on"; "off"; "toggle"])
      then raise (ValueError ("Invalid action: " +:+ act))
      else
        try_except
          (external (EvSend node ep act timeout))
          (fun e =>
             if is_connection_loss e
             then _reconnect_and_retry node ep act timeout
             else raise e)
  end.

(** ** matter2mqtt_app.py *)

Definition dq : string := String "034"%char EmptyString.

(** A JSON string literal; the texts used here need no escaping. *)
Definition json_str (s : string) : string := dq +:+ s +:+ dq.

Definition json_field (k v : string) : string := json_str k +:+ ": " +:+ v.

(** [json.dumps(payload)] for the discovery descriptor. *)
Definition discovery_payload (ep : EndpointInfo) : string :=
  let n := py_str (node_id ep) in
  let e := py_str (endpoint ep) in
  "{" +:+ json_field "name" (json_str ("Matter " +:+ n +:+ "/" +:+ e)) +:+ ", "
  +:+ json_field "state_topic" (json_str (topic_state (node_id ep) (endpoint ep))) +:+ ", "
  +:+ json_field "command_topic" (json_str (topic_set (node_id ep) (endpoint ep))) +:+ ", "
  +:+ json_field "availability_topic"
        (json_str (topic_available (node_id ep) (endpoint ep))) +:+ ", "
  +:+ json_field "payload_on" (json_str "ON") +:+ ", "
  +:+ json_field "payload_off" (json_str "OFF") +:+ ", "
  +:+ json_field "unique_id" (json_str ("matter_" +:+ n +:+ "_" +:+ e)) +:+ ", "
  +:+ json_field "device"
        ("{" +:+ json_field "identifiers" ("[" +:+ json_str ("matter_node_" +:+ n) +:+ "]") +:+ ", "
         +:+ json_field "name" (json_str ("Matter Node " +:+ n)) +:+ ", "
         +:+ json_field "manufacturer" (json_str "Matter") +:+ ", "
         +:+ json_field "model" (json_str "OnOff Device") +:+ "}")
  +:+ "}".

(** [Matter2MQTT.publish_ha_discovery] *)
Definition publish_ha_discovery (ep : EndpointInfo) : M unit :=
  publish_retained (ha_discovery_topic (node_id ep) (endpoint ep))
                   (discovery_payload ep).

(** The first loop of [refresh_snapshot]: [endpoints.extend(extract(n))]. *)
Fixpoint extract_all (nodes : list PyValue) : Result (list EndpointInfo) :=
  match nodes with
  | [] => Ok []
  | n :: rest =>
      result_bind (extract_onoff_endpoints_from_node n) (fun eps =>
      result_bind (extract_all rest) (fun more => Ok (eps ++ more)))
  end.

Definition avail_payload (b : bool) : string := if b then "true" else "false".
Definition state_payload (b : bool) : string := if b then "ON" else "OFF".

(** The availability part of the second publishing loop. *)
Definition publish_availability (ep : EndpointInfo) : M unit :=
  let key := (node_id ep, endpoint ep) in
  la <~ gets last_avail ;;
  when (bool_decide (la !! key <> Some (available ep)))
       (modify (fun w => set_last_avail (<[key := available ep]> (last_avail w)) w) ;;>
        publish_retained (topic_available (node_id ep) (endpoint ep))
                         (avail_payload (available ep))).

(** The state part of the second publishing loop. *)
Definition publish_state (ep : EndpointInfo) : M unit :=
  let key := (node_id ep, endpoint ep) in
  ls <~ gets last_state ;;
  match onoff ep with
  | Some b =>
      when (bool_decide (ls !! key <> Some b))
           (modify (fun w => set_last_state (<[key := b]> (last_state w)) w) ;;>
            publish_retained (topic_state (node_id ep) (endpoint ep))
                             (state_payload b))
  | None => ret tt
  end.

(** The body of the loop "Publish availability + state". *)
Definition publish_endpoint (ep : EndpointInfo) : M unit :=
  publish_availability ep ;;> publish_state ep.

(** [Matter2MQTT.refresh_snapshot] *)
Definition refresh_snapshot : M unit :=
  nodes <~ snapshot_nodes ;;
  endpoints <~ lift (extract_all nodes) ;;
  match endpoints with
  | [] => ret tt
  | _ =>
      for_each endpoints publish_ha_discovery ;;>
      for_each endpoints publish_endpoint
  end.

(** The optimistic publish of [command_consumer_task]. *)
Definition optimistic_publish (cmd : MqttCommand) : M unit :=
  when (str_in (action cmd) ["on"; "off"])
       (let desired := String.eqb (action cmd) "on" in
        publish_retained (topic_state (cmd_node_id cmd) (cmd_endpoint cmd))
                         (state_payload desired)).

(** The [try] block of [command_consumer_task]. *)
Definition send_to_matter (cmd : MqttCommand) : M unit :=
  c <~ gets client ;;
  match c with
  | None => raise (RuntimeError "Matter commander not connected. Commands unavailable.")
  | Some _ =>
      set_onoff (cmd_node_id cmd) (cmd_endpoint cmd) (action cmd)
                DEVICE_COMMAND_TIMEOUT ;;>
      emit (EvSleep 1) ;;>
      refresh_snapshot
  end.

(** One turn of the loop of [command_consumer_task], for the command that
    [cmd_queue.get()] returned. *)
Definition process_command (cmd : MqttCommand) : M unit :=
  optimistic_publish cmd ;;>
  try_except (send_to_matter cmd) (fun _ => ret tt).

(** [command_consumer_task], for at most [turns] turns of its loop; the task
    is suspended when the queue is empty. *)
Fixpoint command_consumer_task (turns : nat) : M unit :=
  match turns with
  | O => ret tt
  | S n =>
      r <~ gets running ;;
      q <~ gets cmd_queue ;;
      match r, q with
      | true, cmd :: rest =>
          modify (set_cmd_queue rest) ;;>
          process_command cmd ;;>
          command_consumer_task n
      | _, _ => ret tt
      end
  end.

(** [Matter2MQTT.stop] *)
Definition stop : M unit :=
  r <~ gets running ;;
  if negb r then ret tt
  else
    modify (set_running false) ;;>
    ts <~ gets tasks ;;
    for_each ts (fun t => emit (EvTaskCancel t)) ;;>
    for_each ts (fun t => try_except (external (EvTaskAwait t)) (fun _ => ret tt)) ;;>
    try_except mqtt_close (fun _ => ret tt) ;;>
    try_except ws_close (fun _ => ret tt) ;;>
    try_except commander_close (fun _ => ret tt).

End Bridge.

(** ** Notions used to state the properties of the extraction *)

(** The key [<endpoint>/<cluster>/<attribute>] in its usual spelling. *)
Definition attr_key (ep cl at_ : Z) : string :=
  py_str ep +:+ "/" +:+ py_str cl +:+ "/" +:+ py_str at_.

(** The key names attribute [at_] of cluster [cl] on endpoint [ep]. *)
Definition key_denotes (key : string) (ep cl at_ : Z) : Prop :=
  _parse_attr_key key = Some (ep, cl, at_).



(** ** Notions used to state the properties of the command ingress *)





(** ** Notions used to state the properties of the command channel *)

(** The calls of [connect] that precede [client.connect()]. *)
Definition fresh_session_events (w : World) : list Event :=
  match session w with
  | Some false => []
  | _ => [EvNewSession]
  end.

(** The calls of one reconnect: the old client is disconnected, a session
    is opened if none is open, a new client is built and connected. *)
Definition reconnect_events (w : World) : list Event :=
  [EvClientDisconnect] ++ fresh_session_events w ++ [EvNewClient; EvClientConnect].

Definition is_send (ev : Event) : bool :=
  match ev with EvSend _ _ _ _ => true | _ => false end.

Definition is_client_connect (ev : Event) : bool :=
  match ev with EvClientConnect => true | _ => false end.

(** Number of send attempts, and of connection attempts, in a trace. *)
Definition sends (t : list Event) : nat := length (filter (fun ev => is_send ev = true) t).
Definition connects (t : list Event) : nat :=
  length (filter (fun ev => is_client_connect ev = true) t).

(** Two environments used as examples.  In both the Matter client library
    is present and the first call made, when it is a send, fails with the
    client's "not connected" error; in the first every connection attempt
    is refused, in the second every other call succeeds. *)
Definition invalid_state : Exn := mkExn "InvalidState" "Not connected".
Definition cannot_connect : Exn := mkExn "CannotConnect" "Connect call failed".

Definition env_server_down : Env :=
  mkEnv true (fun _ => Ok (PyDict []))
    (fun ev n =>
       match ev, n with
       | EvSend _ _ _ _, O => Some invalid_state
       | EvClientConnect, _ => Some cannot_connect
       | _, _ => None
       end).

Definition env_server_back : Env :=
  mkEnv true (fun _ => Ok (PyDict []))
    (fun ev n =>
       match ev, n with
       | EvSend _ _ _ _, O => Some invalid_state
       | _, _ => None
       end).

(** An environment in which no call raises and every fetch is answered
    by the frame [reply]. *)
Definition env_quiet (reply : PyValue) : Env :=
  mkEnv true (fun _ => Ok reply) (fun _ _ => None).

(** The frame that carries [nodes] as its result. *)
Definition reply_of (nodes : list PyValue) : PyValue :=
  PyDict [("message_id", PyStr "1"); ("result", PyList nodes)].

(** An environment in which no call raises; the light of node 42,
    endpoint 3 is reported off by the first fetch of a fresh application
    and on by every later one. *)
Definition env_light_switched : Env :=
  mkEnv true
    (fun n =>
       match n with
       | O => Ok (reply_of [snapshot 42 true [("3/6/0", PyBool false)]])
       | _ => Ok (reply_of [snapshot 42 true [("3/6/0", PyBool true)]])
       end)
    (fun _ _ => None).

(** A world in which the commander is connected. *)
Definition connected_world : World :=
  set_session (Some false) (set_client (Some 0%nat) init_world).

(** ** Notions used to state the properties of the publication *)

Inductive TopicKind : Type := KDiscovery | KAvailability | KState | KOther.

(** The kind of a topic, read off its segments. *)
Definition topic_kind (topic : string) : TopicKind :=
  match py_split "/" None topic with
  | [p0; _; _; p3] =>
      if String.eqb p0 "homeassistant" then KDiscovery
      else if String.eqb p0 "matter" then
        if String.eqb p3 "available" then KAvailability
        else if String.eqb p3 "state" then KState
        else KOther
      else KOther
  | _ => KOther
  end.

(** The kind of message a call publishes, if it is a publication. *)
Definition event_kind (ev : Event) : option TopicKind :=
  match ev with
  | EvPublish topic _ => Some (topic_kind topic)
  | _ => None
  end.

Definition discovery_event (ep : EndpointInfo) : Event :=
  EvPublish (ha_discovery_topic (node_id ep) (endpoint ep)) (discovery_payload ep).

Definition availability_event (ep : EndpointInfo) : Event :=
  EvPublish (topic_available (node_id ep) (endpoint ep))
            (avail_payload (available ep)).

Definition state_event (node ep : Z) (b : bool) : Event :=
  EvPublish (topic_state node ep) (state_payload b).

(** What one endpoint may contribute to the second publishing loop: its
    availability message or nothing, then its state message or nothing. *)
Inductive endpoint_block (ep : EndpointInfo) : list Event -> Prop :=
| block_none : endpoint_block ep []
| block_availability : endpoint_block ep [availability_event ep]
| block_state b :
    onoff ep = Some b ->
    endpoint_block ep [state_event (node_id ep) (endpoint ep) b]
| block_both b :
    onoff ep = Some b ->
    endpoint_block ep [availability_event ep;
                       state_event (node_id ep) (endpoint ep) b].

(** The payload carried by a call when it publishes on [topic]. *)
Definition published_on (topic : string) (ev : Event) : option string :=
  match ev with
  | EvPublish t p => if String.eqb t topic then Some p else None
  | _ => None
  end.

(** The last payload published on [topic] in a trace. *)
Definition last_published (topic : string) (log : list Event) : option string :=
  last (omap (published_on topic) log).

(** The payloads published on [topic] in a trace, in order. *)
Definition payloads_on (topic : string) (log : list Event) : list string :=
  omap (published_on topic) log.

(** The caches hold, for every key, the value last published on the
    availability and on the state topic of that key. *)
Definition cache_agrees (w : World) : Prop :=
  forall n e,
    last_published (topic_available n e) (trace w)
      = avail_payload <$> (last_avail w !! (n, e)) /\
    last_published (topic_state n e) (trace w)
      = state_payload <$> (last_state w !! (n, e)).

(** The de-duplication rule in the words of the specification, on the log
    alone: a value is published if and only if it differs from the value
    last published on its topic, or none was. *)
Definition novel (topic payload : string) (log : list Event) : bool :=
  bool_decide (last_published topic log <> Some payload).

Definition dedup_endpoint (log : list Event) (ep : EndpointInfo) : list Event :=
  (if novel (topic_available (node_id ep) (endpoint ep))
            (avail_payload (available ep)) log
   then [availability_event ep] else []) ++
  match onoff ep with
  | Some b =>
      if novel (topic_state (node_id ep) (endpoint ep)) (state_payload b) log
      then [state_event (node_id ep) (endpoint ep) b] else []
  | None => []
  end.

Fixpoint dedup_log (log : list Event) (eps : list EndpointInfo) : list Event :=
  match eps with
  | [] => []
  | ep :: rest =>
      let new := dedup_endpoint log ep in
      new ++ dedup_log (log ++ new) rest
  end.

(** The world after [k] refreshes of a freshly built application. *)
Fixpoint refresh_rounds (env : Env) (k : nat) : World :=
  match k with
  | O => init_world
  | S k' => (refresh_snapshot env (refresh_rounds env k')).2
  end.

(** ** Properties of computations *)

(** The computation leaves the [running] flag as it found it. *)
Definition keeps_running {A} (m : M A) : Prop :=
  forall w, running (m w).2 = running w.

(** The computation never raises. *)
Definition never_raises {A} (m : M A) : Prop :=
  forall w, exists a, (m w).1 = Ok a.

(** The computation only adds calls at the end of the trace. *)
Definition trace_grows {A} (m : M A) : Prop :=
  forall w, exists new, trace (m w).2 = trace w ++ new.

(** ** Intermediate worlds and computations named in the proofs *)

(** The world in which [connect] calls [client.connect()]. *)
Definition connecting_world (w : World) : World :=
  let w1 := match session w with
            | Some false => w
            | _ => set_session (Some false) (set_trace (trace w ++ [EvNewSession]) w)
            end in
  set_client (Some (length (trace w1))) (set_trace (trace w1 ++ [EvNewClient]) w1).

(** What [stop] does after it has cleared the flag. *)
Definition shutdown_steps (env : Env) : M unit :=
  ts <~ gets tasks ;;
  for_each ts (fun t => emit (EvTaskCancel t)) ;;>
  for_each ts (fun t => try_except (external env (EvTaskAwait t)) (fun _ => ret tt)) ;;>
  try_except (mqtt_close env) (fun _ => ret tt) ;;>
  try_except (ws_close env) (fun _ => ret tt) ;;>
  try_except (commander_close env) (fun _ => ret tt).

(** * Further notions, for the properties beyond the claims *)

(** The key under which an endpoint record is cached. *)
Definition endpoint_key (ep : EndpointInfo) : Z * Z := (node_id ep, endpoint ep).

(** The keys of the records whose on/off value is known. *)
Definition known_keys (eps : list EndpointInfo) : list (Z * Z) :=
  endpoint_key <$> filter (fun ep => is_Some (onoff ep)) eps.

(** The [finally] block of [MatterCommander.close]. *)
Definition close_finally (env : Env) : M unit :=
  modify (set_client None) ;;>
  s <~ gets session ;;
  when (match s with Some false => true | _ => false end)
       (external env EvSessionClose) ;;>
  modify (set_session None).

(** The computation leaves the field [f] of the world as it found it. *)
Definition preserves {A B} (f : World -> B) (m : M A) : Prop :=
  forall w, f (m w).2 = f w.

(** The call by which the consumer publishes the state a command asks
    for, before the command is sent: none for a toggle. *)
Definition optimistic_events (cmd : MqttCommand) : list Event :=
  if str_in (action cmd) ["on"; "off"]
  then [state_event (cmd_node_id cmd) (cmd_endpoint cmd)
                    (String.eqb (action cmd) "on")]
  else [].

(** The action of a command is one that [set_onoff] accepts. *)
Definition valid_command (cmd : MqttCommand) : Prop :=
  action cmd ∈ ["on"; "off"; "toggle"].

(** The calls of [MatterCommander.close], read off the commander it is
    called on. *)
Definition commander_close_events (w : World) : list Event :=
  (if bool_decide (is_Some (client w)) then [EvClientDisconnect] else []) ++
  match session w with Some false => [EvSessionClose] | _ => [] end.

(** ** matter2mqtt_app.py: the periodic refresh *)

Definition SNAPSHOT_REFRESH_INTERVAL : Z := 30.

(** The test by which [periodic_refresh_task] tells the noise of a
    transport that is closing from a failure worth logging. *)
Definition closing_noise (e : Exn) : bool :=
  py_contains "closing transport" (exn_msg e)
  || py_contains "Cannot write to closing transport" (exn_msg e).

(** [periodic_refresh_task], for at most [rounds] rounds of its loop.  The
    handler answers whether the loop goes on. *)
Fixpoint periodic_refresh_task (env : Env) (rounds : nat) : M unit :=
  match rounds with
  | O => ret tt
  | S n =>
      r <~ gets running ;;
      if negb r then ret tt
      else
        emit (EvSleep SNAPSHOT_REFRESH_INTERVAL) ;;>
        r1 <~ gets running ;;
        if negb r1 then ret tt
        else
          go_on <~ try_except
                     (refresh_snapshot env ;;> ret true)
                     (fun e =>
                        r2 <~ gets running ;;
                        if negb r2 then ret false
                        else if closing_noise e then ret false
                        else ret true) ;;
          if go_on then periodic_refresh_task env n else ret tt
  end.

(** The calls of one round: the sleep, then the fetch. *)
Definition refresh_round : list Event :=
  [EvSleep SNAPSHOT_REFRESH_INTERVAL; EvSnapshot].

(** An environment whose every fetch fails with [e]. *)
Definition env_fetch_fails (e : Exn) : Env :=
  mkEnv true (fun _ => Raise e) (fun _ _ => None).

(** ** Notions used to state what the callback is blind to *)

(** Every character of the string is white space. *)
Fixpoint py_all_space (s : string) : bool :=
  match s with
  | EmptyString => true
  | String c s' => py_isspace c && py_all_space s'
  end.

(** ** matter_ws.py: message identifiers *)

(** [MatterWS._next_id], on the counter [_msg_id]: the identifier
    returned and the counter afterwards. *)
Definition _next_id (msg_id : Z) : string * Z :=
  (py_str (msg_id + 1), msg_id + 1).

(** The identifiers of [calls] successive calls. *)
Fixpoint next_ids (calls : nat) (msg_id : Z) : list string :=
  match calls with
  | O => []
  | S n => let (s, msg_id') := _next_id msg_id in s :: next_ids n msg_id'
  end.

(** ** matter2mqtt_app.py: the configuration *)

(** [key in v] for a string [key]: membership among the keys of a
    dictionary, among the elements of a list, as a substring of a string;
    the other values are not containers. *)
Definition dict_has (items : list (string * PyValue)) (key : string) : bool :=
  existsb (fun kv => String.eqb kv.1 key) items.

Definition py_in (key : string) (v : PyValue) : Result bool :=
  match v with
  | PyDict items => Ok (dict_has items key)
  | PyList l =>
      Ok (existsb (fun x => match x with
                            | PyStr s => String.eqb s key
                            | _ => false
                            end) l)
  | PyStr s => Ok (py_contains key s)
  | _ => Raise (TypeError ("argument of type '" +:+ py_type_name v
                           +:+ "' is not iterable"))
  end.

(** What reading the configuration file gave: no file, a file that
    [yaml.safe_load] rejects, or the value loaded. *)
Inductive ConfigFile : Type :=
| NoFile
| BadYaml (err : string)
| Loaded (config : PyValue).

Definition FileNotFoundError (msg : string) : Exn := mkExn "FileNotFoundError" msg.

(** [_load_config], on the outcome of reading [matter2mqtt.yaml]. *)
Definition _load_config (f : ConfigFile) : Result PyValue :=
  match f with
  | NoFile =>
      Raise (FileNotFoundError
        ("Configuration file 'matter2mqtt.yaml' not found. " +:+
         "Please copy 'matter2mqtt.yaml.example' to 'matter2mqtt.yaml' " +:+
         "and update with your settings."))
  | BadYaml err =>
      Raise (ValueError ("Invalid YAML in 'matter2mqtt.yaml': " +:+ err))
  | Loaded config =>
      if negb (py_bool config)
      then Raise (ValueError "'matter2mqtt.yaml' is empty")
      else
        result_bind (py_in "mqtt" config) (fun has_mqtt =>
        if negb has_mqtt
        then Raise (ValueError "Missing 'mqtt' section in configuration")
        else
        result_bind (py_in "matter_ws" config) (fun has_ws =>
        if negb has_ws
        then Raise (ValueError "Missing 'matter_ws' section in configuration")
        else
        result_bind (py_get config "mqtt" (PyDict [])) (fun mqtt_config =>
        result_bind (py_in "host" mqtt_config) (fun has_host =>
        if negb has_host
        then Raise (ValueError "Missing 'mqtt.host' in configuration")
        else
        result_bind (py_in "port" mqtt_config) (fun has_port =>
        if negb has_port
        then Raise (ValueError "Missing 'mqtt.port' in configuration")
        else
        result_bind (py_get config "matter_ws" (PyDict [])) (fun matter_config =>
        result_bind (py_in "url" matter_config) (fun has_url =>
        if negb has_url
        then Raise (ValueError "Missing 'matter_ws.url' in configuration")
        else Ok config)))))))
  end.

(** The errors that the module-level handler around [_load_config]
    catches, logs and raises again. *)
Definition config_error (e : Exn) : bool :=
  str_in (exn_type e) ["FileNotFoundError"; "ValueError"; "YAMLError"].

(** An environment in which every send of a device command fails with
    [e] and no other call raises. *)
Definition env_send_fails (e : Exn) : Env :=
  mkEnv true (fun _ => Ok (PyDict []))
    (fun ev _ => match ev with EvSend _ _ _ _ => Some e | _ => None end).
(** * Proofs *)

(** ** Sanity checks of the built-ins *)

Example py_split_all : py_split "/" None "matter/42/3/set" = ["matter"; "42"; "3"; "set"].
Proof. reflexivity. Qed.

Example py_split_two : py_split "/" (Some 2%nat) "1/6/0/5" = ["1"; "6"; "0/5"].
Proof. reflexivity. Qed.

Example py_split_short : py_split "/" (Some 2%nat) "1/6" = ["1"; "6"].
Proof. reflexivity. Qed.

Example py_int_examples :
  py_int_of_string " 42 " = Some 42 /\ py_int_of_string "-7" = Some (-7) /\
  py_int_of_string "1_000" = Some 1000 /\ py_int_of_string "1__0" = None /\
  py_int_of_string "abc" = None /\ py_int_of_string EmptyString = None /\
  py_int_of_string "+ 1" = None /\ py_int_of_string "0/5" = None.
Proof. repeat split; reflexivity. Qed.

(** FS..US are white space for [strip] and not for [int]. *)
Example py_int_control_space :
  py_int_of_string (String "028" "1") = None /\
  py_int_of_string (String "7" (String "031" EmptyString)) = None /\
  py_int_of_string (String "009" (String "013" "1 ")) = Some 1 /\
  py_strip (String "028" (String "1" (String "031" EmptyString))) = "1".
Proof. repeat split; reflexivity. Qed.

Example py_repr_examples :
  py_repr "abc" = "'abc'" /\
  py_repr "it's" = String "034" ("it's" +:+ String "034" EmptyString) /\
  py_repr (String "028" (String "009" "a\b")) = "'\x1c\ta\\b'".
Proof. repeat split; reflexivity. Qed.

Example py_str_examples :
  py_str 0 = "0" /\ py_str 42 = "42" /\ py_str (-7) = "-7".
Proof. repeat split; reflexivity. Qed.

Example py_strip_upper : py_upper (py_strip "  toggle ") = "TOGGLE".
Proof. reflexivity. Qed.

Example extract_example :
  extract_onoff_endpoints_from_node
    (snapshot 5 true [("1/6/0", PyBool true); ("1/6/1", PyBool false);
                      ("2/3/0", PyBool true)])
  = Ok [mkEndpointInfo 5 1 true (Some true)].
Proof. vm_compute. reflexivity. Qed.


(** ** Facts about the string built-ins *)

Section SplitFacts.

Variable sep : ascii.

Lemma has_char_count s : has_char sep s = false <-> count_sep sep s = 0%nat.
Proof.
  induction s as [|c s IH]; simpl; [done|].
  destruct (Ascii.eqb c sep); simpl; [split; discriminate | apply IH].
Qed.

Lemma has_char_app s t : has_char sep (s +:+ t) = has_char sep s || has_char sep t.
Proof.
  induction s as [|c s IH]; simpl; [done|].
  change (String c s +:+ t) with (String c (s +:+ t)). simpl.
  by rewrite IH, orb_assoc.
Qed.

Lemma py_split_nonempty m s : py_split sep m s <> [].
Proof.
  revert m. induction s as [|c s IH]; intros [[|n]|]; simpl; try done.
  - destruct (Ascii.eqb c sep); [done|].
    destruct (py_split sep (Some (S n)) s) eqn:E; done.
  - destruct (Ascii.eqb c sep); [done|].
    destruct (py_split sep None s) eqn:E; done.
Qed.

Lemma py_split_length s : length (py_split sep None s) = S (count_sep sep s).
Proof.
  induction s as [|c s IH]; simpl; [done|].
  destruct (Ascii.eqb c sep); simpl; [by rewrite IH|].
  destruct (py_split sep None s) eqn:E; simpl in *; [done|]. done.
Qed.

(** With at most [n] separators the bounded split is the full one. *)
Lemma py_split_bounded_all n s :
  (count_sep sep s <= n)%nat -> py_split sep (Some n) s = py_split sep None s.
Proof.
  revert n. induction s as [|c s IH]; intros n Hn; simpl in *.
  - destruct n; done.
  - destruct (Ascii.eqb c sep) eqn:Ec; simpl in *.
    + destruct n as [|n]; [lia|]. simpl. rewrite IH by lia. done.
    + destruct n as [|n].
      * assert (Hs : py_split sep None s = [s]).
        { rewrite <- (IH 0%nat) by lia. by destruct s. }
        rewrite Hs. done.
      * rewrite IH by lia. done.
Qed.

(** With more than [n] separators the bounded split has [n + 1] parts and
    the last one still holds a separator. *)
Lemma py_split_bounded_rest n s :
  (n < count_sep sep s)%nat ->
  exists pre rest, py_split sep (Some n) s = pre ++ [rest] /\
                   length pre = n /\ has_char sep rest = true.
Proof.
  revert n. induction s as [|c s IH]; intros n Hn; simpl in *; [lia|].
  destruct n as [|n].
  - exists [], (String c s). split_and!; [done..|]. simpl.
    destruct (Ascii.eqb c sep); simpl in *; [done|].
    destruct (has_char sep s) eqn:E; [done|]. apply has_char_count in E. lia.
  - destruct (Ascii.eqb c sep) eqn:Ec; simpl in *.
    + destruct (IH n) as (pre & rest & -> & <- & Hr); [lia|].
      exists (EmptyString :: pre), rest. done.
    + destruct (IH (S n)) as (pre & rest & Hsp & Hl & Hr); [lia|].
      rewrite Hsp. destruct pre as [|p pre]; [done|]. simpl.
      exists (String c p :: pre), rest. done.
Qed.

(** Each part of the full split is free of the separator. *)
Lemma py_split_parts_free s p :
  p ∈ py_split sep None s -> has_char sep p = false.
Proof.
  revert p. induction s as [|c s IH]; intros p; simpl.
  - intros ->%list_elem_of_singleton. done.
  - destruct (Ascii.eqb c sep) eqn:Ec.
    + intros [->|?]%elem_of_cons; [done|by apply IH].
    + destruct (py_split sep None s) as [|q qs] eqn:E; simpl.
      * intros ->%list_elem_of_singleton. simpl. rewrite Ec.
        by destruct (py_split_nonempty None s).
      * intros [->|Hin]%elem_of_cons.
        -- simpl. rewrite Ec. apply IH. left.
        -- apply IH. by right.
Qed.

(** Splitting [a ++ sep ++ b] when [a] holds no separator. *)
Lemma py_split_app a b :
  has_char sep a = false ->
  py_split sep None (a +:+ String sep b) = a :: py_split sep None b.
Proof.
  induction a as [|c a IH]; simpl; intros Ha.
  - change (EmptyString +:+ String sep b) with (String sep b). simpl.
    by rewrite Ascii.eqb_refl.
  - apply orb_false_iff in Ha as [Hc Ha].
    change (String c a +:+ String sep b) with (String c (a +:+ String sep b)).
    simpl. rewrite Hc, IH by done. done.
Qed.

Lemma py_split_free a : has_char sep a = false -> py_split sep None a = [a].
Proof.
  induction a as [|c a IH]; simpl; [done|].
  intros [Hc Ha]%orb_false_iff. rewrite Hc, IH by done. done.
Qed.

End SplitFacts.

Section IntFacts.

(** A character that can occur nowhere in an integer literal. *)
Variable c : ascii.
Hypothesis c_not_space : int_isspace c = false.
Hypothesis c_not_digit : py_digit c = None.
Hypothesis c_not_underscore : Ascii.eqb c "_" = false.
Hypothesis c_not_plus : Ascii.eqb c "+" = false.
Hypothesis c_not_minus : Ascii.eqb c "-" = false.

Lemma eqb_space_false a : int_isspace a = true -> Ascii.eqb a c = false.
Proof.
  intros Ha. destruct (Ascii.eqb a c) eqn:E; [|done].
  apply Ascii.eqb_eq in E. congruence.
Qed.

Lemma has_char_lstrip s : has_char c (int_lstrip s) = has_char c s.
Proof.
  induction s as [|a s IH]; simpl; [done|].
  destruct (int_isspace a) eqn:Ha; [|done].
  by rewrite IH, eqb_space_false.
Qed.

Lemma has_char_rstrip s : has_char c (int_rstrip s) = has_char c s.
Proof.
  induction s as [|a s IH]; simpl; [done|].
  destruct (int_rstrip s) as [|b r] eqn:E.
  - rewrite <- IH. destruct (int_isspace a) eqn:Ha; simpl.
    + by rewrite eqb_space_false.
    + by rewrite orb_false_r.
  - simpl in *. by rewrite IH.
Qed.

Lemma has_char_strip s : has_char c (int_strip s) = has_char c s.
Proof. unfold int_strip. by rewrite has_char_rstrip, has_char_lstrip. Qed.

Lemma py_digits_free acc b s z :
  py_digits acc b s = Some z -> has_char c s = false.
Proof.
  revert acc b. induction s as [|a s IH]; intros acc b; simpl; [done|].
  destruct (Ascii.eqb a c) eqn:Eac.
  - apply Ascii.eqb_eq in Eac as ->.
    rewrite c_not_digit, c_not_underscore. done.
  - simpl. destruct (py_digit a); [by apply IH|].
    destruct (Ascii.eqb a "_" && b); [by apply IH|done].
Qed.

(** A string that [int()] accepts does not hold such a character. *)
Lemma py_int_of_string_free s z :
  py_int_of_string s = Some z -> has_char c s = false.
Proof.
  unfold py_int_of_string. intros H. rewrite <- has_char_strip.
  destruct (int_strip s) as [|a body]; [done|]. simpl.
  destruct (Ascii.eqb a "+") eqn:Ep.
  { apply Ascii.eqb_eq in Ep as ->. rewrite Ascii.eqb_sym, c_not_plus.
    by eapply py_digits_free. }
  destruct (Ascii.eqb a "-") eqn:Em.
  { apply Ascii.eqb_eq in Em as ->. rewrite Ascii.eqb_sym, c_not_minus.
    destruct (py_digits 0 false body) eqn:E; [|done].
    by eapply py_digits_free. }
  by apply py_digits_free in H.
Qed.

End IntFacts.

Lemma py_int_no_slash s z : py_int_of_string s = Some z -> has_char "/" s = false.
Proof. by apply py_int_of_string_free. Qed.

(** ** Rendering and reading integers *)

Lemma py_digits_acc p d :
  py_digits (Zpos p) true (NilEmpty.string_of_uint d)
  = Some (Zpos (Pos.of_uint_acc d p)).
Proof.
  revert p. induction d as [|d IH|d IH|d IH|d IH|d IH|d IH|d IH|d IH|d IH|d IH];
    intros p; [done|..]; cbn [NilEmpty.string_of_uint py_digits Pos.of_uint_acc];
    change (py_digit _) with (Some 0) || change (py_digit _) with (Some 1)
    || change (py_digit _) with (Some 2) || change (py_digit _) with (Some 3)
    || change (py_digit _) with (Some 4) || change (py_digit _) with (Some 5)
    || change (py_digit _) with (Some 6) || change (py_digit _) with (Some 7)
    || change (py_digit _) with (Some 8) || change (py_digit _) with (Some 9);
    cbv iota beta; rewrite <- IH; f_equal; lia.
Qed.

Lemma py_digits_of_uint d :
  py_digits 0 true (NilEmpty.string_of_uint d) = Some (Z.of_N (Pos.of_uint d)).
Proof.
  induction d as [|d IH|d IH|d IH|d IH|d IH|d IH|d IH|d IH|d IH|d IH];
    [done|exact IH|..]; apply py_digits_acc.
Qed.

Lemma py_digits_first_digit acc d :
  d <> Decimal.Nil ->
  py_digits acc false (NilEmpty.string_of_uint d)
  = py_digits acc true (NilEmpty.string_of_uint d).
Proof. by destruct d. Qed.

Lemma int_lstrip_uint d :
  int_lstrip (NilEmpty.string_of_uint d) = NilEmpty.string_of_uint d.
Proof. by destruct d. Qed.

Lemma int_rstrip_uint d :
  int_rstrip (NilEmpty.string_of_uint d) = NilEmpty.string_of_uint d.
Proof.
  induction d as [|d IH|d IH|d IH|d IH|d IH|d IH|d IH|d IH|d IH|d IH];
    [done|..]; cbn [NilEmpty.string_of_uint int_rstrip]; rewrite IH;
    by destruct (NilEmpty.string_of_uint d).
Qed.

(** [int(str(n)) == n] *)
Lemma py_int_of_str n : py_int_of_string (py_str n) = Some n.
Proof.
  destruct n as [|p|p]; [done|..]; unfold py_str, py_int_of_string, int_strip;
    cbn [Z.to_int NilZero.string_of_int NilZero.string_of_uint];
    pose proof (DecimalPos.Unsigned.to_uint_nonnil p) as Hnil;
    pose proof (DecimalPos.Unsigned.of_to p) as Hval.
  - assert (Hs : NilZero.string_of_uint (Pos.to_uint p)
                 = NilEmpty.string_of_uint (Pos.to_uint p)).
    { unfold NilZero.string_of_uint. by destruct (Pos.to_uint p). }
    rewrite Hs, int_lstrip_uint, int_rstrip_uint.
    pose proof (py_digits_first_digit 0 _ Hnil) as Hd.
    rewrite py_digits_of_uint, Hval in Hd.
    destruct (Pos.to_uint p); try done.
  - assert (Hs : NilZero.string_of_uint (Pos.to_uint p)
                 = NilEmpty.string_of_uint (Pos.to_uint p)).
    { unfold NilZero.string_of_uint. by destruct (Pos.to_uint p). }
    rewrite Hs. cbn [int_lstrip]. change (int_isspace "-") with false. cbv iota.
    cbn [int_rstrip]. rewrite int_rstrip_uint.
    assert (Hr : match NilEmpty.string_of_uint (Pos.to_uint p) with
                 | EmptyString => String "-" EmptyString
                 | String a s => String "-" (String a s)
                 end = String "-" (NilEmpty.string_of_uint (Pos.to_uint p))).
    { by destruct (NilEmpty.string_of_uint (Pos.to_uint p)). }
    change (int_isspace "-") with false. cbv iota. rewrite Hr.
    change (Ascii.eqb "-" "+") with false. change (Ascii.eqb "-" "-") with true.
    cbv iota. rewrite py_digits_first_digit, py_digits_of_uint, Hval by done.
    done.
Qed.

(** ** Attribute keys *)


Lemma parse_attr_key_wellformed key :
  ~ malformed_key key -> is_Some (_parse_attr_key key).
Proof.
  unfold malformed_key, _parse_attr_key. intros Hm.
  pose proof (py_split_length "/" key) as Hlen.
  destruct (decide (length (py_split "/" None key) = 3%nat)) as [H3|]; [|tauto].
  rewrite py_split_bounded_all by lia.
  destruct (py_split "/" None key) as [|a [|b [|d [|? ?]]]] eqn:E; try done.
  destruct (py_int_of_string a) eqn:Ea;
    [|exfalso; apply Hm; right; exists a; set_solver].
  destruct (py_int_of_string b) eqn:Eb;
    [|exfalso; apply Hm; right; exists b; set_solver].
  destruct (py_int_of_string d) eqn:Ed;
    [|exfalso; apply Hm; right; exists d; set_solver].
  done.
Qed.

Example malformed_examples : malformed_key "abc" /\ malformed_key "1/6".
Proof. split; left; vm_compute; discriminate. Qed.

Lemma attr_key_denotes ep cl at_ : key_denotes (attr_key ep cl at_) ep cl at_.
Proof.
  unfold key_denotes, _parse_attr_key, attr_key.
  assert (Hs : py_split "/" None (py_str ep +:+ "/" +:+ py_str cl +:+ "/" +:+ py_str at_)
               = [py_str ep; py_str cl; py_str at_]).
  { change (py_str ep +:+ "/" +:+ py_str cl +:+ "/" +:+ py_str at_)
      with (py_str ep +:+ String "/" (py_str cl +:+ String "/" (py_str at_))).
    rewrite !py_split_app by (by eapply py_int_no_slash, py_int_of_str).
    rewrite py_split_free by (by eapply py_int_no_slash, py_int_of_str). done. }
  pose proof (py_split_length "/" (py_str ep +:+ "/" +:+ py_str cl +:+ "/" +:+ py_str at_))
    as Hl.
  rewrite Hs in Hl. simpl in Hl.
  rewrite py_split_bounded_all, Hs by lia.
  by rewrite !py_int_of_str.
Qed.

(** ** The scan over the attribute items *)


Lemma scan_attr_onoff_other acc kv ep :
  _parse_attr_key kv.1 <> Some (ep, ONOFF_CLUSTER_ID, ONOFF_ATTRIBUTE_ID) ->
  (scan_attr acc kv).2 !! ep = acc.2 !! ep.
Proof.
  unfold scan_attr. destruct acc as [eps st]. simpl. intros Hne.
  destruct (_parse_attr_key kv.1) as [[[e cl] a]|]; simpl; [|done].
  destruct (cl =? ONOFF_CLUSTER_ID) eqn:Hcl; simpl; [|done].
  destruct (a =? ONOFF_ATTRIBUTE_ID) eqn:Ha; simpl; [|done].
  apply Z.eqb_eq in Hcl as ->. apply Z.eqb_eq in Ha as ->.
  rewrite lookup_insert_ne; [done|]. congruence.
Qed.

Lemma scan_attr_onoff_hit acc kv ep :
  _parse_attr_key kv.1 = Some (ep, ONOFF_CLUSTER_ID, ONOFF_ATTRIBUTE_ID) ->
  (scan_attr acc kv).2 !! ep = Some (py_bool kv.2).
Proof.
  unfold scan_attr. destruct acc as [eps st]. simpl. intros ->. simpl.
  by rewrite lookup_insert_eq.
Qed.



Lemma scan_fold_onoff_none items acc ep :
  (forall k v, (k, v) ∈ items ->
     _parse_attr_key k <> Some (ep, ONOFF_CLUSTER_ID, ONOFF_ATTRIBUTE_ID)) ->
  (fold_left scan_attr items acc).2 !! ep = acc.2 !! ep.
Proof.
  revert acc. induction items as [|[k v] items IH]; intros acc Hno; simpl; [done|].
  rewrite IH.
  - apply scan_attr_onoff_other. simpl. apply (Hno k v). left.
  - intros k' v' Hin. apply (Hno k' v'). by right.
Qed.

Lemma scan_fold_onoff_last l1 k v l2 acc ep :
  _parse_attr_key k = Some (ep, ONOFF_CLUSTER_ID, ONOFF_ATTRIBUTE_ID) ->
  (forall k' v', (k', v') ∈ l2 ->
     _parse_attr_key k' <> Some (ep, ONOFF_CLUSTER_ID, ONOFF_ATTRIBUTE_ID)) ->
  (fold_left scan_attr (l1 ++ (k, v) :: l2) acc).2 !! ep = Some (py_bool v).
Proof.
  intros Hk Hl2. rewrite fold_left_app. simpl.
  rewrite scan_fold_onoff_none by done.
  by rewrite (scan_attr_onoff_hit _ (k, v)).
Qed.


(** ** [sorted] on a set of integers *)





(** ** Endpoint extraction *)





Example extract_two_endpoints :
  extract_onoff_endpoints_from_node
    (snapshot 7 true [("3/6/0", PyInt 1); ("2/6/5", PyNone)])
  = Ok [mkEndpointInfo 7 2 true None; mkEndpointInfo 7 3 true (Some true)].
Proof. vm_compute. reflexivity. Qed.

(** Two spellings of one key: the later item decides the reading. *)
Example extract_respelled_key :
  extract_onoff_endpoints_from_node
    (snapshot 7 true [("1/6/0", PyBool true); ("01/6/0", PyBool false)])
  = Ok [mkEndpointInfo 7 1 true (Some false)].
Proof. vm_compute. reflexivity. Qed.



(** ** Command ingress *)

Lemma str_in_elem s l : str_in s l = true <-> s ∈ l.
Proof.
  unfold str_in. rewrite existsb_exists. split.
  - intros (x & Hx & ->%String.eqb_eq). by apply list_elem_of_In.
  - intros Hs. exists s. split; [by apply list_elem_of_In|apply String.eqb_refl].
Qed.

Lemma str_in_not_elem s l : str_in s l = false <-> s ∉ l.
Proof.
  rewrite <- str_in_elem. destruct (str_in s l); split; done.
Qed.





(** What one call of the callback does, by cases on the message. *)
Lemma on_message_run msg w :
  _on_message msg w =
  match py_split "/" None (msg_topic msg) with
  | [p0; p1; p2; p3] =>
      if String.eqb p0 "matter" && String.eqb p3 "set" then
        match py_int_of_string p1, py_int_of_string p2,
              payload_action (normalize_payload (msg_payload msg)) with
        | Some n, Some e, Some a =>
            (Ok tt, set_cmd_queue (cmd_queue w ++ [mkMqttCommand n e a]) w)
        | _, _, _ => (Ok tt, w)
        end
      else (Ok tt, w)
  | _ => (Ok tt, w)
  end.
Proof.
  unfold _on_message, try_except, on_message_body.
  destruct (py_split "/" None (msg_topic msg)) as [|p0 [|p1 [|p2 [|p3 [|? ?]]]]];
    try done.
  destruct (String.eqb p0 "matter"), (String.eqb p3 "set"); try done. simpl.
  unfold bind, lift. simpl.
  destruct (py_int_of_string p1); [|done].
  destruct (py_int_of_string p2); [|done].
  destruct (payload_action _); done.
Qed.




(** ** The command channel *)

Section Commander.

Variable env : Env.

Lemma external_run ev w :
  external env ev w =
  (match call_raises env ev (length (trace w)) with
   | None => Ok tt
   | Some e => Raise e
   end, set_trace (trace w ++ [ev]) w).
Proof. unfold external. by destruct (call_raises env ev (length (trace w))). Qed.

Lemma connect_run w :
  matter_client_installed env = true ->
  connect env w = external env EvClientConnect (connecting_world w).
Proof.
  intros Hi. unfold connect, connecting_world. rewrite Hi. simpl.
  unfold bind, gets, when, emit, modify. simpl.
  by destruct (session w) as [[]|].
Qed.

Lemma connect_not_installed w :
  matter_client_installed env = false ->
  connect env w =
  (Raise (RuntimeError "MatterClient/Clusters not installed. Install matter-server package."), w).
Proof. intros Hi. unfold connect. by rewrite Hi. Qed.

Lemma connecting_world_trace w :
  trace (connecting_world w) = trace w ++ fresh_session_events w ++ [EvNewClient].
Proof.
  unfold connecting_world, fresh_session_events.
  destruct (session w) as [[]|]; simpl; by rewrite <- ?app_assoc.
Qed.

Lemma ensure_connected_client w w0 :
  ensure_connected env w = (Ok tt, w0) -> is_Some (client w0).
Proof.
  unfold ensure_connected, bind, gets.
  destruct (client w) as [h|] eqn:Hc.
  - intros [= <-]. by rewrite Hc.
  - destruct (matter_client_installed env) eqn:Hi.
    + rewrite connect_run, external_run by done.
      intros [= _ <-]. simpl. eauto.
    + by rewrite connect_not_installed.
Qed.

Lemma reconnect_and_retry_eq node ep act timeout w :
  is_Some (client w) ->
  matter_client_installed env = true ->
  _reconnect_and_retry env node ep act timeout w =
  bind (external env EvClientConnect)
       (fun _ => external env (EvSend node ep act timeout))
       (connecting_world
          (set_client None (set_trace (trace w ++ [EvClientDisconnect]) w))).
Proof.
  intros [h Hc] Hi. unfold _reconnect_and_retry.
  unfold bind at 1. unfold try_except, bind at 1, gets. rewrite Hc. simpl.
  rewrite external_run.
  destruct (call_raises env EvClientDisconnect (length (trace w)));
    unfold bind, modify, ret; simpl; by rewrite connect_run.
Qed.

Lemma reconnect_and_retry_not_installed node ep act timeout w :
  is_Some (client w) ->
  matter_client_installed env = false ->
  _reconnect_and_retry env node ep act timeout w =
  (Raise (RuntimeError
            "MatterClient/Clusters not installed. Install matter-server package."),
   set_client None (set_trace (trace w ++ [EvClientDisconnect]) w)).
Proof.
  intros [h Hc] Hi. unfold _reconnect_and_retry.
  unfold bind at 1. unfold try_except, bind at 1, gets. rewrite Hc. simpl.
  rewrite external_run.
  destruct (call_raises env EvClientDisconnect (length (trace w)));
    unfold bind, modify, ret; simpl; by rewrite connect_not_installed.
Qed.

(** The run of [_reconnect_and_retry] from a world with a client. *)
Lemma reconnect_and_retry_run node ep act timeout w :
  is_Some (client w) ->
  matter_client_installed env = true ->
  let send := EvSend node ep act timeout in
  let t := trace w ++ reconnect_events w in
  let out := _reconnect_and_retry env node ep act timeout w in
  match call_raises env EvClientConnect (length t - 1) with
  | Some ec => out.1 = Raise ec /\ trace out.2 = t
  | None =>
      trace out.2 = t ++ [send] /\
      out.1 = match call_raises env send (length t) with
              | None => Ok tt
              | Some e2 => Raise e2
              end
  end.
Proof.
  intros Hc Hi send t out. subst out. rewrite reconnect_and_retry_eq by done.
  set (w2 := set_client None (set_trace (trace w ++ [EvClientDisconnect]) w)).
  assert (Ht : trace (connecting_world w2) ++ [EvClientConnect] = t).
  { rewrite connecting_world_trace. subst t.
    unfold reconnect_events, fresh_session_events.
    simpl. by rewrite <- !app_assoc. }
  assert (Hl : length (trace (connecting_world w2)) = (length t - 1)%nat).
  { rewrite <- Ht, length_app. simpl. lia. }
  unfold bind. rewrite external_run, Hl.
  destruct (call_raises env EvClientConnect _) as [ec|].
  - by rewrite Ht.
  - rewrite external_run, Ht. cbn [fst snd trace set_trace]. done.
Qed.

(** C3 as amended.  Let the first send of [set_onoff] fail.  If the
    failure is not a connection loss (its text does not hold "Not
    connected" and the name of its class does not hold "InvalidState"), it
    is raised at once and nothing else is done.  If it is one, exactly one
    reconnect is attempted (the old client is disconnected, whatever that
    gives, and one new client is connected); when the connection succeeds
    the same send is retried exactly once with the same timeout, and its
    failure, if any, is raised with no further attempt; when the
    connection fails, or cannot be attempted for want of the client
    library, that failure is raised and there is no retry. *)
Theorem set_onoff_reconnects_once node ep act timeout w w0 e1 :
  ensure_connected env w = (Ok tt, w0) ->
  str_in act ["on"; "off"; "toggle"] = true ->
  call_raises env (EvSend node ep act timeout) (length (trace w0)) = Some e1 ->
  let send := EvSend node ep act timeout in
  let out := set_onoff env node ep act timeout w in
  (is_connection_loss e1 = false ->
     out = (Raise e1, set_trace (trace w0 ++ [send]) w0)) /\
  (is_connection_loss e1 = true -> matter_client_installed env = true ->
     let t := trace w0 ++ [send] ++ reconnect_events w0 in
     connects (send :: reconnect_events w0) = 1%nat /\
     sends (send :: reconnect_events w0) = 1%nat /\
     match call_raises env EvClientConnect (length t - 1) with
     | Some ec => out.1 = Raise ec /\ trace out.2 = t
     | None =>
         trace out.2 = t ++ [send] /\
         out.1 = match call_raises env send (length t) with
                 | None => Ok tt
                 | Some e2 => Raise e2
                 end
     end) /\
  (is_connection_loss e1 = true -> matter_client_installed env = false ->
     (exists e, out.1 = Raise e) /\
     trace out.2 = trace w0 ++ [send; EvClientDisconnect]).
Proof.
  intros Hens Hact Hcall send out.
  destruct (ensure_connected_client _ _ Hens) as [h Hc].
  assert (Hout : out = if is_connection_loss e1
                       then _reconnect_and_retry env node ep act timeout
                              (set_trace (trace w0 ++ [send]) w0)
                       else (Raise e1, set_trace (trace w0 ++ [send]) w0)).
  { subst out. unfold set_onoff. unfold bind at 1. rewrite Hens.
    unfold bind, gets. rewrite Hc, Hact. cbn [negb].
    unfold try_except, raise. rewrite external_run, Hcall.
    by destruct (is_connection_loss e1). }
  split_and!.
  - intros Hl. by rewrite Hout, Hl.
  - intros Hl Hi t. rewrite Hout, Hl. split_and!.
    + unfold reconnect_events, fresh_session_events.
      by destruct (session w0) as [[]|].
    + unfold reconnect_events, fresh_session_events.
      by destruct (session w0) as [[]|].
    + pose proof (reconnect_and_retry_run node ep act timeout
                    (set_trace (trace w0 ++ [send]) w0)) as Hr.
      cbn zeta in Hr.
      replace (trace (set_trace (trace w0 ++ [send]) w0)
               ++ reconnect_events (set_trace (trace w0 ++ [send]) w0))
        with t in Hr.
      * apply Hr; [|done]. simpl. eauto.
      * subst t. unfold reconnect_events. simpl. by rewrite <- !app_assoc.
  - intros Hl Hi. rewrite Hout, Hl.
    rewrite reconnect_and_retry_not_installed by (simpl; eauto).
    split; [eauto|]. simpl. by rewrite <- app_assoc.
Qed.

End Commander.

Lemma set_onoff_reconnects_once_witness :
  let send := EvSend 42 3 "on" DEVICE_COMMAND_TIMEOUT in
  let out := set_onoff env_server_back 42 3 "on" DEVICE_COMMAND_TIMEOUT
               connected_world in
  trace out.2 = [send; EvClientDisconnect; EvNewClient; EvClientConnect; send] /\
  out.1 = Ok tt.
Proof.
  pose proof (set_onoff_reconnects_once env_server_back 42 3 "on"
                DEVICE_COMMAND_TIMEOUT connected_world connected_world
                invalid_state eq_refl eq_refl eq_refl) as H.
  apply proj2, proj1 in H. specialize (H eq_refl eq_refl).
  apply proj2, proj2 in H. exact H.
Defined.

(** C3 as stated fails: when the reconnect itself fails there is no retry.
    The first send reports a connection loss, one reconnect is attempted,
    the connection is refused, and that error reaches the caller after a
    single send. *)
Lemma set_onoff_no_retry_after_failed_reconnect :
  let send := EvSend 42 3 "on" DEVICE_COMMAND_TIMEOUT in
  let out := set_onoff env_server_down 42 3 "on" DEVICE_COMMAND_TIMEOUT
               connected_world in
  call_raises env_server_down send (length (trace connected_world))
    = Some invalid_state /\
  is_connection_loss invalid_state = true /\
  trace out.2 = [send; EvClientDisconnect; EvNewClient; EvClientConnect] /\
  connects (trace out.2) = 1%nat /\
  sends (trace out.2) = 1%nat /\
  out.1 = Raise cannot_connect.
Proof. vm_compute. repeat split; reflexivity. Qed.

(** ** Topic names *)

Lemma append_assoc (a b c : string) : (a +:+ b) +:+ c = a +:+ (b +:+ c).
Proof.
  induction a as [|x a IH]; [done|].
  change (String x (a +:+ b) +:+ c = String x (a +:+ (b +:+ c))).
  change (String x ((a +:+ b) +:+ c) = String x (a +:+ (b +:+ c))).
  by rewrite IH.
Qed.

Lemma nilempty_no_slash d : has_char "/" (NilEmpty.string_of_uint d) = false.
Proof. induction d; simpl; done. Qed.

Lemma py_str_no_slash n : has_char "/" (py_str n) = false.
Proof.
  unfold py_str, NilZero.string_of_int, NilZero.string_of_uint.
  destruct (Z.to_int n) as [d|d]; destruct d; simpl;
    try done; apply nilempty_no_slash.
Qed.

Lemma py_str_inj n m : py_str n = py_str m -> n = m.
Proof.
  intros H. apply (f_equal py_int_of_string) in H.
  rewrite !py_int_of_str in H. congruence.
Qed.

Lemma topic_state_split n e :
  py_split "/" None (topic_state n e) = ["matter"; py_str n; py_str e; "state"].
Proof.
  unfold topic_state.
  change ("matter/" +:+ py_str n +:+ "/" +:+ py_str e +:+ "/state")
    with ("matter" +:+ String "/" (py_str n +:+ String "/" (py_str e +:+ String "/" "state"))).
  rewrite (py_split_app "/" "matter") by done.
  rewrite !py_split_app by apply py_str_no_slash. done.
Qed.

Lemma topic_available_split n e :
  py_split "/" None (topic_available n e)
  = ["matter"; py_str n; py_str e; "available"].
Proof.
  unfold topic_available.
  change ("matter/" +:+ py_str n +:+ "/" +:+ py_str e +:+ "/available")
    with ("matter" +:+ String "/" (py_str n +:+ String "/" (py_str e +:+ String "/" "available"))).
  rewrite (py_split_app "/" "matter") by done.
  rewrite !py_split_app by apply py_str_no_slash. done.
Qed.

Lemma ha_discovery_topic_split n e :
  py_split "/" None (ha_discovery_topic n e)
  = ["homeassistant"; "light"; "matter_" +:+ py_str n +:+ "_" +:+ py_str e; "config"].
Proof.
  unfold ha_discovery_topic, HA_DISCOVERY_DEVICE_CLASS.
  change ("homeassistant/" +:+ "light" +:+ "/matter_" +:+ py_str n +:+ "_" +:+
          py_str e +:+ "/config")
    with ("homeassistant" +:+ String "/" ("light" +:+ String "/"
            ("matter_" +:+ py_str n +:+ "_" +:+ py_str e +:+ String "/" "config"))).
  rewrite (py_split_app "/" "homeassistant") by done.
  rewrite (py_split_app "/" "light") by done.
  assert (Hfree : has_char "/" ("matter_" +:+ py_str n +:+ "_" +:+ py_str e) = false).
  { by rewrite !has_char_app, !py_str_no_slash. }
  assert (Hassoc : "matter_" +:+ py_str n +:+ "_" +:+ py_str e +:+ String "/" "config"
                   = ("matter_" +:+ py_str n +:+ "_" +:+ py_str e) +:+ String "/" "config").
  { by rewrite !append_assoc. }
  rewrite Hassoc, py_split_app by done. done.
Qed.

Lemma topic_kind_state n e : topic_kind (topic_state n e) = KState.
Proof. unfold topic_kind. by rewrite topic_state_split. Qed.

Lemma topic_kind_available n e : topic_kind (topic_available n e) = KAvailability.
Proof. unfold topic_kind. by rewrite topic_available_split. Qed.

Lemma topic_kind_discovery n e : topic_kind (ha_discovery_topic n e) = KDiscovery.
Proof. unfold topic_kind. by rewrite ha_discovery_topic_split. Qed.

Lemma topic_state_inj n e n' e' :
  topic_state n e = topic_state n' e' -> n = n' /\ e = e'.
Proof.
  intros H. apply (f_equal (py_split "/" None)) in H.
  rewrite !topic_state_split in H. injection H as Hn He.
  by split; apply py_str_inj.
Qed.

Lemma topic_available_inj n e n' e' :
  topic_available n e = topic_available n' e' -> n = n' /\ e = e'.
Proof.
  intros H. apply (f_equal (py_split "/" None)) in H.
  rewrite !topic_available_split in H. injection H as Hn He.
  by split; apply py_str_inj.
Qed.

Lemma topic_kind_ne t t' : topic_kind t <> topic_kind t' -> t <> t'.
Proof. congruence. Qed.

(** ** Frame properties of the monad operations *)

Create HintDb frame.

Section Frame.

Context {A B : Type}.

Lemma keeps_running_ret (a : A) : keeps_running (ret a).
Proof. done. Qed.

Lemma keeps_running_raise e : keeps_running (@raise A e).
Proof. done. Qed.

Lemma keeps_running_gets (f : World -> A) : keeps_running (gets f).
Proof. done. Qed.

Lemma keeps_running_bind (m : M A) (k : A -> M B) :
  keeps_running m -> (forall a, keeps_running (k a)) -> keeps_running (bind m k).
Proof.
  intros Hm Hk w. unfold bind. specialize (Hm w).
  destruct (m w) as [[a|e] w']; simpl in *; [|done].
  by rewrite Hk.
Qed.

Lemma keeps_running_try_except (m : M A) h :
  keeps_running m -> (forall e, keeps_running (h e)) ->
  keeps_running (try_except m h).
Proof.
  intros Hm Hh w. unfold try_except. specialize (Hm w).
  destruct (m w) as [[a|e] w']; simpl in *; [done|].
  by rewrite Hh.
Qed.

Lemma keeps_running_try_finally (m : M A) f :
  keeps_running m -> keeps_running f -> keeps_running (try_finally m f).
Proof.
  intros Hm Hf w. unfold try_finally. specialize (Hm w).
  destruct (m w) as [r w']; simpl in *. specialize (Hf w').
  destruct (f w') as [[[]|e] w'']; simpl in *; congruence.
Qed.

Lemma never_raises_ret (a : A) : never_raises (ret a).
Proof. intros w. by exists a. Qed.

Lemma never_raises_gets (f : World -> A) : never_raises (gets f).
Proof. intros w. by eexists. Qed.

Lemma never_raises_bind (m : M A) (k : A -> M B) :
  never_raises m -> (forall a, never_raises (k a)) -> never_raises (bind m k).
Proof.
  intros Hm Hk w. unfold bind. destruct (Hm w) as [a Ha].
  destruct (m w) as [[a'|e] w']; simpl in *; [|done]. apply Hk.
Qed.

Lemma never_raises_try_except (m : M A) h :
  (forall e, never_raises (h e)) -> never_raises (try_except m h).
Proof.
  intros Hh w. unfold try_except.
  destruct (m w) as [[a|e] w']; simpl; [by exists a|apply Hh].
Qed.

Lemma trace_grows_ret (a : A) : trace_grows (ret a).
Proof. intros w. exists []. by rewrite app_nil_r. Qed.

Lemma trace_grows_raise e : trace_grows (@raise A e).
Proof. intros w. exists []. by rewrite app_nil_r. Qed.

Lemma trace_grows_lift (r : Result A) : trace_grows (lift r).
Proof. intros w. exists []. by rewrite app_nil_r. Qed.

Lemma trace_grows_gets (f : World -> A) : trace_grows (gets f).
Proof. intros w. exists []. by rewrite app_nil_r. Qed.

Lemma trace_grows_bind (m : M A) (k : A -> M B) :
  trace_grows m -> (forall a, trace_grows (k a)) -> trace_grows (bind m k).
Proof.
  intros Hm Hk w. unfold bind. destruct (Hm w) as [n1 H1].
  destruct (m w) as [[a|e] w']; simpl in *; [|by exists n1].
  destruct (Hk a w') as [n2 H2]. exists (n1 ++ n2).
  by rewrite H2, H1, app_assoc.
Qed.

Lemma trace_grows_try_except (m : M A) h :
  trace_grows m -> (forall e, trace_grows (h e)) -> trace_grows (try_except m h).
Proof.
  intros Hm Hh w. unfold try_except. destruct (Hm w) as [n1 H1].
  destruct (m w) as [[a|e] w']; simpl in *; [by exists n1|].
  destruct (Hh e w') as [n2 H2]. exists (n1 ++ n2).
  by rewrite H2, H1, app_assoc.
Qed.

End Frame.

#[local] Hint Resolve keeps_running_ret keeps_running_raise keeps_running_gets
  keeps_running_bind keeps_running_try_except keeps_running_try_finally
  never_raises_ret never_raises_gets never_raises_bind never_raises_try_except
  trace_grows_ret trace_grows_raise trace_grows_lift trace_grows_gets
  trace_grows_bind trace_grows_try_except : frame.

Lemma keeps_running_when b m : keeps_running m -> keeps_running (when b m).
Proof. by destruct b. Qed.

Lemma keeps_running_for_each {A} (l : list A) body :
  (forall x, keeps_running (body x)) -> keeps_running (for_each l body).
Proof. intros Hb. induction l; simpl; auto with frame. Qed.

Lemma keeps_running_emit ev : keeps_running (emit ev).
Proof. done. Qed.

Lemma keeps_running_external env ev : keeps_running (external env ev).
Proof. intros w. by rewrite external_run. Qed.

Lemma never_raises_when b m : never_raises m -> never_raises (when b m).
Proof. destruct b; [done|]. intros _. apply never_raises_ret. Qed.

Lemma never_raises_for_each {A} (l : list A) body :
  (forall x, never_raises (body x)) -> never_raises (for_each l body).
Proof. intros Hb. induction l; simpl; auto with frame. Qed.

Lemma never_raises_emit ev : never_raises (emit ev).
Proof. intros w. by exists tt. Qed.

Lemma never_raises_modify f : never_raises (modify f).
Proof. intros w. by exists tt. Qed.

Lemma trace_grows_when b m : trace_grows m -> trace_grows (when b m).
Proof. destruct b; [done|]. intros _. apply trace_grows_ret. Qed.

Lemma trace_grows_for_each {A} (l : list A) body :
  (forall x, trace_grows (body x)) -> trace_grows (for_each l body).
Proof. intros Hb. induction l; simpl; auto with frame. Qed.

Lemma trace_grows_emit ev : trace_grows (emit ev).
Proof. intros w. by exists [ev]. Qed.

Lemma trace_grows_external env ev : trace_grows (external env ev).
Proof. intros w. rewrite external_run. by exists [ev]. Qed.

#[local] Hint Resolve keeps_running_when keeps_running_for_each
  keeps_running_emit keeps_running_external
  never_raises_when never_raises_for_each never_raises_emit never_raises_modify
  trace_grows_when trace_grows_for_each trace_grows_emit trace_grows_external
  : frame.

(** ** Shutdown *)

Section Shutdown.

Variable env : Env.

Lemma keeps_running_set_client c : keeps_running (modify (set_client c)).
Proof. done. Qed.

Lemma keeps_running_set_session s : keeps_running (modify (set_session s)).
Proof. done. Qed.

Lemma keeps_running_mqtt_close : keeps_running (mqtt_close env).
Proof. unfold mqtt_close. auto with frame. Qed.

Lemma keeps_running_ws_close : keeps_running (ws_close env).
Proof. unfold ws_close. auto 10 with frame. Qed.

Lemma keeps_running_commander_close : keeps_running (commander_close env).
Proof.
  unfold commander_close.
  auto 10 using keeps_running_set_client, keeps_running_set_session with frame.
Qed.

Lemma stop_unfold w :
  stop env w =
  if running w then shutdown_steps env (set_running false w) else (Ok tt, w).
Proof. unfold stop, bind at 1, gets. simpl. by destruct (running w). Qed.

Lemma shutdown_steps_keeps_running : keeps_running (shutdown_steps env).
Proof.
  unfold shutdown_steps.
  auto 20 using keeps_running_mqtt_close, keeps_running_ws_close,
    keeps_running_commander_close with frame.
Qed.

Lemma shutdown_steps_never_raises : never_raises (shutdown_steps env).
Proof. unfold shutdown_steps. auto 20 with frame. Qed.

Lemma stop_clears_running w : running (stop env w).2 = false.
Proof.
  rewrite stop_unfold. destruct (running w) eqn:Hr; [|done].
  by rewrite shutdown_steps_keeps_running.
Qed.

(** C8.  [stop] never raises, and a call of [stop] made after an earlier
    call has completed returns at once: the world, and with it the trace of
    task cancellations and of close calls on the three collaborators, is
    left exactly as the first call left it, however many further calls
    are made. *)
Theorem stop_idempotent w :
  (stop env w).1 = Ok tt /\
  stop env (stop env w).2 = (Ok tt, (stop env w).2) /\
  (forall n, Nat.iter n (fun w' => (stop env w').2) (stop env w).2 = (stop env w).2).
Proof.
  assert (Hagain : stop env (stop env w).2 = (Ok tt, (stop env w).2)).
  { rewrite (stop_unfold (stop env w).2), stop_clears_running. done. }
  split_and!.
  - rewrite stop_unfold. destruct (running w); [|done].
    destruct (shutdown_steps_never_raises (set_running false w)) as [[] ->]. done.
  - done.
  - induction n as [|n IH]; simpl; [done|]. by rewrite IH, Hagain.
Qed.

End Shutdown.

(** The first call does the cancelling and the closing. *)
Example stop_first_call :
  trace (stop env_server_back
           (mkWorld true ∅ ∅ [] ["refresh"; "cmd_consumer"] (Some 0%nat)
                    (Some false) true true [])).2
  = [EvTaskCancel "refresh"; EvTaskCancel "cmd_consumer";
     EvTaskAwait "refresh"; EvTaskAwait "cmd_consumer";
     EvMqttLoopStop; EvMqttDisconnect; EvWsClose; EvWsSessionClose;
     EvClientDisconnect; EvSessionClose].
Proof. vm_compute. reflexivity. Qed.

(** ** The log of publications *)

Lemma published_on_same t p : published_on t (EvPublish t p) = Some p.
Proof. simpl. by rewrite String.eqb_refl. Qed.

Lemma published_on_other t t' p : t <> t' -> published_on t' (EvPublish t p) = None.
Proof.
  intros Hne. simpl. destruct (String.eqb t t') eqn:E; [|done].
  by apply String.eqb_eq in E.
Qed.

Lemma last_published_snoc topic log ev :
  last_published topic (log ++ [ev]) =
  match published_on topic ev with
  | Some p => Some p
  | None => last_published topic log
  end.
Proof.
  unfold last_published. rewrite omap_app. simpl.
  destruct (published_on topic ev); [apply last_snoc|by rewrite app_nil_r].
Qed.

Lemma last_published_skip topic log ev :
  published_on topic ev = None ->
  last_published topic (log ++ [ev]) = last_published topic log.
Proof. intros H. by rewrite last_published_snoc, H. Qed.

Lemma last_published_skip_all topic log evs :
  Forall (fun ev => published_on topic ev = None) evs ->
  last_published topic (log ++ evs) = last_published topic log.
Proof.
  induction evs as [|ev evs IH] using rev_ind; intros H.
  - by rewrite app_nil_r.
  - apply Forall_app in H as [H1 H2]. rewrite Forall_singleton in H2.
    by rewrite app_assoc, last_published_skip, IH.
Qed.

Lemma avail_payload_inj a b : avail_payload a = avail_payload b -> a = b.
Proof. by destruct a, b. Qed.

Lemma state_payload_inj a b : state_payload a = state_payload b -> a = b.
Proof. by destruct a, b. Qed.

Lemma discovery_not_value_topic n e n' e' :
  ha_discovery_topic n e <> topic_available n' e' /\
  ha_discovery_topic n e <> topic_state n' e'.
Proof.
  split; apply topic_kind_ne;
    by rewrite topic_kind_discovery, ?topic_kind_available, ?topic_kind_state.
Qed.

Lemma available_not_state_topic n e n' e' : topic_available n e <> topic_state n' e'.
Proof.
  apply topic_kind_ne. by rewrite topic_kind_available, topic_kind_state.
Qed.

(** ** Agreement of the caches with the log *)

Lemma set_trace_same w : set_trace (trace w) w = w.
Proof. by destruct w. Qed.

Lemma cache_agrees_init : cache_agrees init_world.
Proof. intros n e. simpl. by rewrite !lookup_empty. Qed.

Lemma cache_agrees_skip w evs :
  (forall n e, Forall (fun ev => published_on (topic_available n e) ev = None
                               /\ published_on (topic_state n e) ev = None) evs) ->
  cache_agrees w -> cache_agrees (set_trace (trace w ++ evs) w).
Proof.
  intros Hevs Hw n e. simpl. specialize (Hevs n e).
  rewrite !last_published_skip_all.
  - apply Hw.
  - eapply Forall_impl; [done|]. by intros ev [_ ?].
  - eapply Forall_impl; [done|]. by intros ev [? _].
Qed.

Lemma cache_agrees_discovery w eps :
  cache_agrees w -> cache_agrees (set_trace (trace w ++ (discovery_event <$> eps)) w).
Proof.
  apply cache_agrees_skip. intros n e. apply Forall_fmap, Forall_forall.
  intros ep _. unfold discovery_event.
  destruct (discovery_not_value_topic (node_id ep) (endpoint ep) n e) as [H1 H2].
  split; by apply published_on_other.
Qed.

Lemma cache_agrees_availability w n e av :
  cache_agrees w ->
  cache_agrees
    (set_trace (trace w ++ [EvPublish (topic_available n e) (avail_payload av)])
               (set_last_avail (<[(n, e) := av]> (last_avail w)) w)).
Proof.
  intros Hw n' e'. simpl. rewrite !last_published_snoc. split.
  - destruct (decide ((n, e) = (n', e'))) as [[= <- <-]|Hne].
    + by rewrite published_on_same, lookup_insert_eq.
    + rewrite published_on_other, lookup_insert_ne by
        (try done; intros [??]%topic_available_inj; congruence).
      apply Hw.
  - rewrite published_on_other by apply available_not_state_topic. apply Hw.
Qed.

Lemma cache_agrees_state w n e b :
  cache_agrees w ->
  cache_agrees
    (set_trace (trace w ++ [EvPublish (topic_state n e) (state_payload b)])
               (set_last_state (<[(n, e) := b]> (last_state w)) w)).
Proof.
  intros Hw n' e'. simpl. rewrite !last_published_snoc. split.
  - rewrite published_on_other.
    + apply Hw.
    + intros H. by eapply available_not_state_topic.
  - destruct (decide ((n, e) = (n', e'))) as [[= <- <-]|Hne].
    + by rewrite published_on_same, lookup_insert_eq.
    + rewrite published_on_other, lookup_insert_ne by
        (try done; intros [??]%topic_state_inj; congruence).
      apply Hw.
Qed.

Lemma novel_availability w n e av :
  cache_agrees w ->
  novel (topic_available n e) (avail_payload av) (trace w)
  = bool_decide (last_avail w !! (n, e) <> Some av).
Proof.
  intros Hw. unfold novel. rewrite (proj1 (Hw n e)). apply bool_decide_ext.
  destruct (last_avail w !! (n, e)) as [x|]; simpl; [|done].
  split; intros H [= Hx]; apply H; [by rewrite Hx|].
  by apply avail_payload_inj in Hx as ->.
Qed.

Lemma novel_state w n e b :
  cache_agrees w ->
  novel (topic_state n e) (state_payload b) (trace w)
  = bool_decide (last_state w !! (n, e) <> Some b).
Proof.
  intros Hw. unfold novel. rewrite (proj2 (Hw n e)). apply bool_decide_ext.
  destruct (last_state w !! (n, e)) as [x|]; simpl; [|done].
  split; intros H [= Hx]; apply H; [by rewrite Hx|].
  by apply state_payload_inj in Hx as ->.
Qed.

(** ** The publishing loops *)

Lemma publish_availability_run ep w :
  publish_availability ep w =
  (Ok tt,
   if bool_decide (last_avail w !! (node_id ep, endpoint ep) <> Some (available ep))
   then set_trace (trace w ++ [availability_event ep])
          (set_last_avail (<[(node_id ep, endpoint ep) := available ep]> (last_avail w)) w)
   else w).
Proof.
  unfold publish_availability, bind, gets, when. by case_bool_decide.
Qed.

Lemma publish_state_run ep w :
  publish_state ep w =
  (Ok tt,
   match onoff ep with
   | Some b =>
       if bool_decide (last_state w !! (node_id ep, endpoint ep) <> Some b)
       then set_trace (trace w ++ [state_event (node_id ep) (endpoint ep) b])
              (set_last_state (<[(node_id ep, endpoint ep) := b]> (last_state w)) w)
       else w
   | None => w
   end).
Proof.
  unfold publish_state, bind, gets, when.
  destruct (onoff ep); [|done]. by case_bool_decide.
Qed.

Lemma publish_endpoint_ok ep w : (publish_endpoint ep w).1 = Ok tt.
Proof.
  unfold publish_endpoint, bind.
  by rewrite publish_availability_run, publish_state_run.
Qed.

Lemma publish_endpoint_block ep w :
  exists block, endpoint_block ep block /\
                trace (publish_endpoint ep w).2 = trace w ++ block.
Proof.
  unfold publish_endpoint, bind.
  rewrite publish_availability_run, publish_state_run.
  case_bool_decide; destruct (onoff ep) as [b|] eqn:Hb; simpl;
    try case_bool_decide; simpl.
  - eexists. split; [by apply (block_both ep b)|]. by rewrite <- app_assoc.
  - eexists. split; [apply block_availability|done].
  - eexists. split; [apply block_availability|done].
  - eexists. split; [by apply (block_state ep b)|done].
  - exists []. split; [constructor|by rewrite app_nil_r].
  - exists []. split; [constructor|by rewrite app_nil_r].
Qed.

Lemma for_each_discovery_run eps w :
  for_each eps publish_ha_discovery w =
  (Ok tt, set_trace (trace w ++ (discovery_event <$> eps)) w).
Proof.
  revert w. induction eps as [|ep eps IH]; intros w; simpl.
  - by rewrite app_nil_r, set_trace_same.
  - unfold bind. simpl. rewrite IH. simpl. by rewrite <- app_assoc.
Qed.

Lemma for_each_endpoint_blocks eps w :
  (for_each eps publish_endpoint w).1 = Ok tt /\
  exists blocks, Forall2 endpoint_block eps blocks /\
                 trace (for_each eps publish_endpoint w).2 = trace w ++ concat blocks.
Proof.
  revert w. induction eps as [|ep eps IH]; intros w; simpl.
  - split; [done|]. exists []. split; [constructor|by rewrite app_nil_r].
  - unfold bind. pose proof (publish_endpoint_ok ep w) as Hok.
    destruct (publish_endpoint_block ep w) as (block & Hblock & Ht).
    destruct (publish_endpoint ep w) as [r w1]. simpl in *. subst r.
    destruct (IH w1) as [Hok' (blocks & Hblocks & Ht')]. split; [done|].
    exists (block :: blocks). split; [by constructor|].
    by rewrite Ht', Ht, <- app_assoc.
Qed.

Section Refresh.

Variable env : Env.

Lemma snapshot_nodes_world w :
  (snapshot_nodes env w).2 = set_trace (trace w ++ [EvSnapshot]) w.
Proof.
  unfold snapshot_nodes. destruct (snapshot_reply env _) as [resp|e]; [|done].
  destruct (py_get resp "result" (PyList [])) as [[]|]; done.
Qed.

(** The run of [refresh_snapshot], by cases on the fetch and the extraction. *)
Lemma refresh_snapshot_run w :
  refresh_snapshot env w =
  let w1 := set_trace (trace w ++ [EvSnapshot]) w in
  match (snapshot_nodes env w).1 with
  | Raise e => (Raise e, w1)
  | Ok nodes =>
      match extract_all nodes with
      | Raise e => (Raise e, w1)
      | Ok [] => (Ok tt, w1)
      | Ok eps =>
          for_each eps publish_endpoint
            (set_trace (trace w1 ++ (discovery_event <$> eps)) w1)
      end
  end.
Proof.
  unfold refresh_snapshot, bind at 1.
  pose proof (snapshot_nodes_world w) as Hw.
  destruct (snapshot_nodes env w) as [[nodes|e] w1]; simpl in *; subst w1; [|done].
  unfold bind at 1, lift.
  destruct (extract_all nodes) as [[|ep eps]|e]; [done| |done].
  unfold bind. by rewrite for_each_discovery_run.
Qed.

(** C7.  When the fetch succeeds and the extraction over all the fetched
    nodes yields no endpoint, [refresh_snapshot] returns normally, the only
    call it has made is the fetch (so nothing is published on any topic),
    and both caches are left as they were. *)
Theorem refresh_snapshot_no_endpoints w nodes :
  (snapshot_nodes env w).1 = Ok nodes ->
  extract_all nodes = Ok [] ->
  let out := refresh_snapshot env w in
  out.1 = Ok tt /\
  trace out.2 = trace w ++ [EvSnapshot] /\
  omap event_kind (trace out.2) = omap event_kind (trace w) /\
  last_state out.2 = last_state w /\
  last_avail out.2 = last_avail w.
Proof.
  intros Hs He out. subst out. rewrite refresh_snapshot_run, Hs, He. simpl.
  split_and!; try done. by rewrite omap_app, app_nil_r.
Qed.

Lemma endpoint_block_kinds ep block :
  endpoint_block ep block ->
  Forall (fun ev => event_kind ev = Some KAvailability \/
                    event_kind ev = Some KState) block.
Proof.
  intros [| |b Hb|b Hb]; rewrite ?Forall_cons; simpl;
    rewrite ?topic_kind_available, ?topic_kind_state;
    repeat split; auto using Forall_nil_2.
Qed.

(** C1 as amended.  When the extraction yields endpoints, the refresh
    returns normally and publishes, after its fetch, first one discovery
    message per endpoint, in order, and only then the availability and
    state messages; these come endpoint by endpoint, in order, each
    endpoint contributing its availability message (if any) immediately
    followed by its state message (if any).  So no availability or state
    message precedes a discovery message, and within the messages of one
    endpoint record availability comes before state. *)
Theorem refresh_snapshot_order w nodes eps :
  (snapshot_nodes env w).1 = Ok nodes ->
  extract_all nodes = Ok eps ->
  eps <> [] ->
  let out := refresh_snapshot env w in
  out.1 = Ok tt /\
  exists blocks,
    Forall2 endpoint_block eps blocks /\
    trace out.2
      = trace w ++ [EvSnapshot] ++ (discovery_event <$> eps) ++ concat blocks /\
    Forall (fun ev => event_kind ev = Some KDiscovery) (discovery_event <$> eps) /\
    Forall (fun ev => event_kind ev = Some KAvailability \/
                      event_kind ev = Some KState) (concat blocks).
Proof.
  intros Hs He Hne out. subst out. rewrite refresh_snapshot_run, Hs, He.
  destruct eps as [|ep eps]; [done|]. cbn zeta.
  set (w2 := set_trace _ _).
  destruct (for_each_endpoint_blocks (ep :: eps) w2) as [Hok (blocks & Hb & Ht)].
  split; [done|]. exists blocks. split_and!.
  - done.
  - rewrite Ht. subst w2. simpl. by rewrite <- !app_assoc.
  - apply Forall_fmap, Forall_forall. intros x _. simpl.
    by rewrite topic_kind_discovery.
  - apply Forall_concat. eapply Forall2_Forall_r; [done|].
    apply Forall_forall. intros x _ block. apply endpoint_block_kinds.
Qed.

End Refresh.

Lemma refresh_snapshot_no_endpoints_witness :
  let out := refresh_snapshot
               (env_quiet (reply_of [snapshot 5 true [("2/3/0", PyBool true)]]))
               init_world in
  out.1 = Ok tt /\
  trace out.2 = trace init_world ++ [EvSnapshot] /\
  omap event_kind (trace out.2) = omap event_kind (trace init_world) /\
  last_state out.2 = last_state init_world /\
  last_avail out.2 = last_avail init_world.
Proof.
  apply (refresh_snapshot_no_endpoints
           (env_quiet (reply_of [snapshot 5 true [("2/3/0", PyBool true)]]))
           init_world [snapshot 5 true [("2/3/0", PyBool true)]]).
  - reflexivity.
  - vm_compute. reflexivity.
Defined.

Lemma refresh_snapshot_order_witness :
  let eps := [mkEndpointInfo 5 1 true (Some false)] in
  let out := refresh_snapshot
               (env_quiet (reply_of [snapshot 5 true [("1/6/0", PyBool false)]]))
               init_world in
  out.1 = Ok tt /\
  exists blocks,
    Forall2 endpoint_block eps blocks /\
    trace out.2
      = trace init_world ++ [EvSnapshot] ++ (discovery_event <$> eps) ++ concat blocks /\
    Forall (fun ev => event_kind ev = Some KDiscovery) (discovery_event <$> eps) /\
    Forall (fun ev => event_kind ev = Some KAvailability \/
                      event_kind ev = Some KState) (concat blocks).
Proof.
  apply (refresh_snapshot_order
           (env_quiet (reply_of [snapshot 5 true [("1/6/0", PyBool false)]]))
           init_world [snapshot 5 true [("1/6/0", PyBool false)]]).
  - reflexivity.
  - vm_compute. reflexivity.
  - discriminate.
Defined.

(** C1 as stated fails: with two endpoints whose values are both new, the
    state message of the first endpoint is published before the
    availability message of the second. *)
Lemma refresh_snapshot_state_before_availability :
  let out := refresh_snapshot
               (env_quiet (reply_of [snapshot 1 true [("1/6/0", PyBool true);
                                                      ("2/6/0", PyBool true)]]))
               init_world in
  omap event_kind (trace out.2)
    = [KDiscovery; KDiscovery; KAvailability; KState; KAvailability; KState] /\
  trace out.2 !! 4%nat = Some (EvPublish "matter/1/1/state" "ON") /\
  trace out.2 !! 5%nat = Some (EvPublish "matter/1/2/available" "true").
Proof. vm_compute. repeat split; reflexivity. Qed.

(** ** The de-duplication rule *)

(** The loop body on the caches: what is published and what is committed. *)
Lemma publish_endpoint_rule ep w :
  let key := (node_id ep, endpoint ep) in
  let out := publish_endpoint ep w in
  out.1 = Ok tt /\
  trace out.2 =
    trace w
    ++ (if bool_decide (last_avail w !! key = Some (available ep))
        then [] else [availability_event ep])
    ++ match onoff ep with
       | Some b => if bool_decide (last_state w !! key = Some b)
                   then [] else [state_event (node_id ep) (endpoint ep) b]
       | None => []
       end /\
  last_avail out.2 =
    (if bool_decide (last_avail w !! key = Some (available ep))
     then last_avail w else <[key := available ep]> (last_avail w)) /\
  last_state out.2 =
    match onoff ep with
    | Some b => if bool_decide (last_state w !! key = Some b)
                then last_state w else <[key := b]> (last_state w)
    | None => last_state w
    end.
Proof.
  intros key out. subst out key. unfold publish_endpoint, bind.
  rewrite publish_availability_run, publish_state_run.
  destruct (onoff ep) as [b|]; rewrite !bool_decide_not;
    destruct (bool_decide (last_avail w !! _ = _)); simpl;
    try destruct (bool_decide (last_state w !! _ = _)); simpl;
    rewrite ?app_nil_r, <- ?app_assoc; done.
Qed.

Lemma publish_endpoint_dedup ep w :
  cache_agrees w ->
  trace (publish_endpoint ep w).2 = trace w ++ dedup_endpoint (trace w) ep /\
  cache_agrees (publish_endpoint ep w).2.
Proof.
  intros Hw. unfold dedup_endpoint.
  rewrite novel_availability by done.
  unfold publish_endpoint, bind.
  rewrite publish_availability_run, publish_state_run.
  set (w1 := if bool_decide _ then _ else w).
  assert (Hw1 : cache_agrees w1 /\ last_state w1 = last_state w /\
                trace w1 = trace w ++
                  (if bool_decide (last_avail w !! (node_id ep, endpoint ep)
                                   <> Some (available ep))
                   then [availability_event ep] else [])).
  { subst w1. case_bool_decide.
    - split_and!; [by apply cache_agrees_availability|done|done].
    - split_and!; [done|done|by rewrite app_nil_r]. }
  destruct Hw1 as (Hag & Hls & Htr). clearbody w1. cbn [snd].
  rewrite app_assoc, <- Htr. clear Htr.
  destruct (onoff ep) as [b|].
  - rewrite (novel_state w) by done. rewrite <- Hls.
    case_bool_decide; cbn [trace set_trace].
    + split; [done|]. by apply cache_agrees_state.
    + split; [by rewrite app_nil_r|done].
  - split; [by rewrite app_nil_r|done].
Qed.

Lemma for_each_endpoint_dedup eps w :
  cache_agrees w ->
  trace (for_each eps publish_endpoint w).2 = trace w ++ dedup_log (trace w) eps /\
  cache_agrees (for_each eps publish_endpoint w).2.
Proof.
  revert w. induction eps as [|ep eps IH]; intros w Hw; simpl.
  - by rewrite app_nil_r.
  - unfold bind. pose proof (publish_endpoint_ok ep w) as Hok.
    destruct (publish_endpoint_dedup ep w Hw) as [Ht Hag].
    destruct (publish_endpoint ep w) as [r w1]. simpl in *. subst r.
    destruct (IH w1 Hag) as [Ht' Hag']. split; [|done].
    by rewrite Ht', Ht, <- app_assoc.
Qed.

Section Dedup.

Variable env : Env.

Lemma refresh_snapshot_agrees w :
  cache_agrees w -> cache_agrees (refresh_snapshot env w).2.
Proof.
  intros Hw. rewrite refresh_snapshot_run. cbn zeta.
  assert (H1 : cache_agrees (set_trace (trace w ++ [EvSnapshot]) w)).
  { apply cache_agrees_skip; [|done]. intros n e. by repeat constructor. }
  destruct (snapshot_nodes env w).1 as [nodes|e]; [|done].
  destruct (extract_all nodes) as [[|ep eps]|e]; [done| |done].
  apply for_each_endpoint_dedup.
  by apply (cache_agrees_discovery _ (ep :: eps)) in H1.
Qed.

Lemma refresh_rounds_agree k : cache_agrees (refresh_rounds env k).
Proof.
  induction k as [|k IH]; simpl; [apply cache_agrees_init|].
  by apply refresh_snapshot_agrees.
Qed.

(** C2.  In the publishing loop of a refresh, the availability of an
    endpoint is published exactly when it is not the value cached for the
    key of that endpoint, and is then committed to the cache; likewise,
    and independently, for a known on/off value; an unknown on/off value
    is neither published nor cached.  After any number of refreshes of a
    fresh application the caches hold the values last published on the
    availability and state topics, so that, measured on the log alone, a
    refresh publishes a value exactly when it differs from the value last
    published on the topic of that key, or none was. *)
Theorem refresh_publishes_changes_only :
  (forall ep w,
     let key := (node_id ep, endpoint ep) in
     let out := publish_endpoint ep w in
     out.1 = Ok tt /\
     trace out.2 =
       trace w
       ++ (if bool_decide (last_avail w !! key = Some (available ep))
           then [] else [availability_event ep])
       ++ match onoff ep with
          | Some b => if bool_decide (last_state w !! key = Some b)
                      then [] else [state_event (node_id ep) (endpoint ep) b]
          | None => []
          end /\
     last_avail out.2 =
       (if bool_decide (last_avail w !! key = Some (available ep))
        then last_avail w else <[key := available ep]> (last_avail w)) /\
     last_state out.2 =
       match onoff ep with
       | Some b => if bool_decide (last_state w !! key = Some b)
                   then last_state w else <[key := b]> (last_state w)
       | None => last_state w
       end) /\
  (forall k, cache_agrees (refresh_rounds env k)) /\
  (forall k nodes eps,
     let w := refresh_rounds env k in
     (snapshot_nodes env w).1 = Ok nodes ->
     extract_all nodes = Ok eps ->
     eps <> [] ->
     let log := trace w ++ [EvSnapshot] ++ (discovery_event <$> eps) in
     trace (refresh_snapshot env w).2 = log ++ dedup_log log eps).
Proof.
  split_and!.
  - apply publish_endpoint_rule.
  - apply refresh_rounds_agree.
  - intros k nodes eps w Hs He Hne log.
    rewrite refresh_snapshot_run, Hs, He. cbn zeta.
    destruct eps as [|ep eps]; [done|].
    set (w2 := set_trace _ _).
    assert (Hlog : trace w2 = log).
    { subst w2 log. simpl. by rewrite <- !app_assoc. }
    rewrite <- Hlog. apply for_each_endpoint_dedup.
    subst w2. apply (cache_agrees_discovery _ (ep :: eps)).
    apply cache_agrees_skip; [|apply refresh_rounds_agree].
    intros n e. by repeat constructor.
Qed.

End Dedup.

(** A second refresh that observes what the first one published sends the
    discovery message again and nothing else. *)
Example refresh_twice_same_snapshot :
  let env := env_quiet (reply_of [snapshot 5 true [("1/6/0", PyBool false)]]) in
  omap event_kind (trace (refresh_rounds env 1)) = [KDiscovery; KAvailability; KState] /\
  omap event_kind (trace (refresh_rounds env 2))
    = [KDiscovery; KAvailability; KState; KDiscovery].
Proof. vm_compute. split; reflexivity. Qed.

Lemma refresh_publishes_changes_only_witness :
  let env := env_quiet (reply_of [snapshot 5 true [("1/6/0", PyBool false)]]) in
  let eps := [mkEndpointInfo 5 1 true (Some false)] in
  let w := refresh_rounds env 1 in
  let log := trace w ++ [EvSnapshot] ++ (discovery_event <$> eps) in
  trace (refresh_snapshot env w).2 = log ++ dedup_log log eps.
Proof.
  apply (proj2 (proj2 (refresh_publishes_changes_only
           (env_quiet (reply_of [snapshot 5 true [("1/6/0", PyBool false)]]))))
           1%nat [snapshot 5 true [("1/6/0", PyBool false)]]).
  - reflexivity.
  - vm_compute. reflexivity.
  - discriminate.
Defined.

(** ** The command consumer *)

Lemma trace_grows_modify f :
  (forall w, trace (f w) = trace w) -> trace_grows (modify f).
Proof. intros Hf w. exists []. simpl. by rewrite Hf, app_nil_r. Qed.

Section Consumer.

Variable env : Env.

Lemma trace_grows_connect : trace_grows (connect env).
Proof.
  unfold connect. destruct (matter_client_installed env); simpl;
    auto 20 using trace_grows_modify with frame.
Qed.

Lemma trace_grows_reconnect node ep act timeout :
  trace_grows (_reconnect_and_retry env node ep act timeout).
Proof.
  unfold _reconnect_and_retry.
  auto 20 using trace_grows_modify, trace_grows_connect with frame.
Qed.

Lemma trace_grows_snapshot_nodes : trace_grows (snapshot_nodes env).
Proof. intros w. rewrite snapshot_nodes_world. by exists [EvSnapshot]. Qed.

Lemma trace_grows_publish_endpoint ep : trace_grows (publish_endpoint ep).
Proof.
  intros w. destruct (publish_endpoint_block ep w) as (block & _ & Ht). eauto.
Qed.

Lemma trace_grows_refresh : trace_grows (refresh_snapshot env).
Proof.
  unfold refresh_snapshot.
  apply trace_grows_bind; [apply trace_grows_snapshot_nodes|]. intros nodes.
  apply trace_grows_bind; [apply trace_grows_lift|]. intros [|ep eps].
  - apply trace_grows_ret.
  - unfold publish_ha_discovery, publish_retained.
    auto 10 using trace_grows_publish_endpoint with frame.
Qed.

Lemma bind_first_event {A B} (m : M A) (k : A -> M B) (w : World) ev :
  (exists rest, trace (m w).2 = trace w ++ ev :: rest) ->
  (forall a, trace_grows (k a)) ->
  exists rest, trace (bind m k w).2 = trace w ++ ev :: rest.
Proof.
  intros [rest Hm] Hk. unfold bind.
  destruct (m w) as [[a|e] w1]; simpl in *; [|eauto].
  destruct (Hk a w1) as [more Hmore]. exists (rest ++ more).
  by rewrite Hmore, Hm, <- app_assoc.
Qed.

Lemma try_except_first_event {A} (m : M A) h (w : World) ev :
  (exists rest, trace (m w).2 = trace w ++ ev :: rest) ->
  (forall e, trace_grows (h e)) ->
  exists rest, trace (try_except m h w).2 = trace w ++ ev :: rest.
Proof.
  intros [rest Hm] Hh. unfold try_except.
  destruct (m w) as [[a|e] w1]; simpl in *; [eauto|].
  destruct (Hh e w1) as [more Hmore]. exists (rest ++ more).
  by rewrite Hmore, Hm, <- app_assoc.
Qed.

(** With a client at hand and a valid action, the first call of
    [set_onoff] is the send. *)
Lemma set_onoff_first_event node ep act timeout w :
  is_Some (client w) ->
  str_in act ["on"; "off"; "toggle"] = true ->
  exists rest,
    trace (set_onoff env node ep act timeout w).2
    = trace w ++ EvSend node ep act timeout :: rest.
Proof.
  intros [h Hc] Hact. unfold set_onoff. unfold bind at 1.
  unfold ensure_connected, bind at 1, gets. rewrite Hc. cbn [ret fst snd].
  unfold bind. rewrite Hc, Hact. cbn [negb].
  apply try_except_first_event.
  - rewrite external_run. by exists [].
  - intros e. destruct (is_connection_loss e);
      [apply trace_grows_reconnect|apply trace_grows_raise].
Qed.

Lemma optimistic_publish_run cmd w :
  optimistic_publish cmd w =
  (Ok tt,
   if str_in (action cmd) ["on"; "off"]
   then set_trace (trace w ++ [state_event (cmd_node_id cmd) (cmd_endpoint cmd)
                                           (String.eqb (action cmd) "on")]) w
   else w).
Proof. unfold optimistic_publish. by destruct (str_in _ _). Qed.

(** The turn of the consumer once the optimistic publish is done. *)
Lemma dispatch_first_event cmd w :
  str_in (action cmd) ["on"; "off"; "toggle"] = true ->
  let send := EvSend (cmd_node_id cmd) (cmd_endpoint cmd) (action cmd)
                     DEVICE_COMMAND_TIMEOUT in
  let out := try_except (send_to_matter env cmd) (fun _ => ret tt) w in
  trace out.2 = trace w \/ exists rest, trace out.2 = trace w ++ send :: rest.
Proof.
  intros Hact send out. subst out.
  destruct (client w) as [h|] eqn:Hc.
  - right. apply try_except_first_event; [|auto with frame].
    unfold send_to_matter. unfold bind at 1, gets. rewrite Hc.
    apply bind_first_event.
    + apply set_onoff_first_event; [by rewrite Hc|done].
    + intros _. apply trace_grows_bind; [apply trace_grows_emit|].
      intros _. apply trace_grows_refresh.
  - left. unfold try_except, send_to_matter, bind, gets. by rewrite Hc.
Qed.

(** C10.  A toggle command is dispatched without any optimistic publish:
    the turn of the consumer makes no call at all (no client), or its
    first call is the send of the toggle to the command channel, so every
    publication of the turn comes after the dispatch.  A command whose
    action is on or off starts its turn with the publication of ON or OFF
    on the state topic of its endpoint.  No other action publishes
    optimistically. *)
Theorem toggle_has_no_optimistic_publish cmd w :
  let node := cmd_node_id cmd in
  let ep := cmd_endpoint cmd in
  let out := process_command env cmd w in
  (action cmd = "toggle" ->
     optimistic_publish cmd w = (Ok tt, w) /\
     (trace out.2 = trace w \/
      exists rest,
        trace out.2 = trace w ++ EvSend node ep "toggle" DEVICE_COMMAND_TIMEOUT :: rest)) /\
  (forall b : bool, action cmd = (if b then "on" else "off") ->
     exists rest, trace out.2 = trace w ++ state_event node ep b :: rest) /\
  (str_in (action cmd) ["on"; "off"] = false ->
     optimistic_publish cmd w = (Ok tt, w)).
Proof.
  intros node ep out. subst out node ep. split_and!.
  - intros Ha. rewrite optimistic_publish_run, Ha. split; [done|].
    unfold process_command, bind. rewrite optimistic_publish_run, Ha.
    cbn [str_in existsb String.eqb orb].
    pose proof (dispatch_first_event cmd w) as H. rewrite Ha in H.
    by apply H.
  - intros b Ha. unfold process_command.
    apply bind_first_event.
    + rewrite optimistic_publish_run, Ha. exists []. by destruct b.
    + intros _. apply trace_grows_try_except; [|auto with frame].
      unfold send_to_matter. apply trace_grows_bind; [apply trace_grows_gets|].
      intros [h|]; [|apply trace_grows_raise].
      apply trace_grows_bind.
      * unfold set_onoff, ensure_connected.
        apply trace_grows_bind.
        { apply trace_grows_bind; [apply trace_grows_gets|].
          intros [?|]; [apply trace_grows_ret|apply trace_grows_connect]. }
        intros _. apply trace_grows_bind; [apply trace_grows_gets|].
        intros [?|]; [|apply trace_grows_raise].
        destruct (negb _); [apply trace_grows_raise|].
        apply trace_grows_try_except; [apply trace_grows_external|].
        intros e. destruct (is_connection_loss e);
          [apply trace_grows_reconnect|apply trace_grows_raise].
      * intros _. apply trace_grows_bind; [apply trace_grows_emit|].
        intros _. apply trace_grows_refresh.
  - intros Ha. by rewrite optimistic_publish_run, Ha.
Qed.

End Consumer.

Lemma toggle_has_no_optimistic_publish_witness :
  let env := env_quiet (reply_of []) in
  let cmd := mkMqttCommand 42 3 "toggle" in
  let out := process_command env cmd connected_world in
  optimistic_publish cmd connected_world = (Ok tt, connected_world) /\
  (trace out.2 = trace connected_world \/
   exists rest,
     trace out.2
     = trace connected_world ++ EvSend 42 3 "toggle" DEVICE_COMMAND_TIMEOUT :: rest).
Proof.
  apply (proj1 (toggle_has_no_optimistic_publish (env_quiet (reply_of []))
                  (mkMqttCommand 42 3 "toggle") connected_world)).
  reflexivity.
Defined.

Example toggle_turn :
  trace (process_command (env_quiet (reply_of [snapshot 42 true [("3/6/0", PyBool true)]]))
           (mkMqttCommand 42 3 "toggle") connected_world).2
  = [EvSend 42 3 "toggle" DEVICE_COMMAND_TIMEOUT; EvSleep 1; EvSnapshot;
     discovery_event (mkEndpointInfo 42 3 true (Some true));
     EvPublish "matter/42/3/available" "true";
     EvPublish "matter/42/3/state" "ON"].
Proof. vm_compute. reflexivity. Qed.

(** Commands are taken from the head of the queue, one per turn. *)
Example consumer_takes_commands_in_order :
  let w := set_cmd_queue [mkMqttCommand 42 3 "on"; mkMqttCommand 42 4 "toggle"]
             connected_world in
  let out := command_consumer_task (env_quiet (reply_of [])) 5 w in
  out.1 = Ok tt /\
  cmd_queue out.2 = [] /\
  trace out.2
  = [EvPublish "matter/42/3/state" "ON";
     EvSend 42 3 "on" DEVICE_COMMAND_TIMEOUT; EvSleep 1; EvSnapshot;
     EvSend 42 4 "toggle" DEVICE_COMMAND_TIMEOUT; EvSleep 1; EvSnapshot].
Proof. vm_compute. repeat split; reflexivity. Qed.

(** The second publishing loop looks at the caches only. *)
Lemma for_each_endpoint_same_caches eps w1 w2 :
  last_state w1 = last_state w2 ->
  last_avail w1 = last_avail w2 ->
  exists new,
    trace (for_each eps publish_endpoint w1).2 = trace w1 ++ new /\
    trace (for_each eps publish_endpoint w2).2 = trace w2 ++ new.
Proof.
  revert w1 w2. induction eps as [|ep eps IH]; intros w1 w2 Hs Ha; simpl.
  - exists []. by rewrite !app_nil_r.
  - unfold bind.
    destruct (publish_endpoint_rule ep w1) as (Hok1 & Ht1 & Ha1 & Hs1).
    destruct (publish_endpoint_rule ep w2) as (Hok2 & Ht2 & Ha2 & Hs2).
    destruct (publish_endpoint ep w1) as [r1 v1].
    destruct (publish_endpoint ep w2) as [r2 v2].
    simpl in *. subst r1 r2.
    rewrite <- Hs, <- Ha in *.
    destruct (IH v1 v2) as (new & Hn1 & Hn2); [congruence..|].
    eexists. rewrite Hn1, Hn2, Ht1, Ht2, <- !app_assoc. done.
Qed.

(** C9.  The optimistic publish of the consumer changes neither cache: it
    only adds its message, if any, to the trace.  The publishing loop of a
    later refresh therefore takes, from the world after the optimistic
    publish, the decisions it would take from the world before it.  In
    particular the value just published optimistically can be published
    again: with OFF cached for the endpoint, a command on publishes ON
    optimistically, the cache still holds OFF, and the confirming refresh,
    which observes the light on, publishes ON a second time. *)
Theorem optimistic_publish_bypasses_cache :
  (forall cmd w,
     let out := optimistic_publish cmd w in
     out.1 = Ok tt /\
     last_state out.2 = last_state w /\
     last_avail out.2 = last_avail w /\
     trace out.2 =
       trace w ++
       (if str_in (action cmd) ["on"; "off"]
        then [state_event (cmd_node_id cmd) (cmd_endpoint cmd)
                          (String.eqb (action cmd) "on")]
        else [])) /\
  (forall cmd w eps,
     let w' := (optimistic_publish cmd w).2 in
     exists new,
       trace (for_each eps publish_endpoint w).2 = trace w ++ new /\
       trace (for_each eps publish_endpoint w').2 = trace w' ++ new) /\
  (let env := env_light_switched in
   let cmd := mkMqttCommand 42 3 "on" in
   let w1 := (refresh_snapshot env connected_world).2 in
   let w2 := (optimistic_publish cmd w1).2 in
   let w3 := (process_command env cmd w1).2 in
   payloads_on (topic_state 42 3) (trace w1) = ["OFF"] /\
   payloads_on (topic_state 42 3) (trace w2) = ["OFF"; "ON"] /\
   last_state w2 !! (42, 3) = Some false /\
   payloads_on (topic_state 42 3) (trace w3) = ["OFF"; "ON"; "ON"]).
Proof.
  split_and!.
  - intros cmd w. cbn zeta. rewrite optimistic_publish_run.
    destruct (str_in _ _); simpl; by rewrite ?app_nil_r.
  - intros cmd w eps. cbn zeta. apply for_each_endpoint_same_caches;
      rewrite optimistic_publish_run; by destruct (str_in _ _).
  - vm_compute. repeat split; reflexivity.
Qed.

(** * Properties beyond the claims *)

#[local] Set Warnings "-clear-no-such-hyp".

(** ** Topic names and attribute keys *)

Lemma nilempty_no_underscore d : has_char "_" (NilEmpty.string_of_uint d) = false.
Proof. induction d; simpl; done. Qed.

Lemma py_str_no_underscore n : has_char "_" (py_str n) = false.
Proof.
  unfold py_str, NilZero.string_of_int, NilZero.string_of_uint.
  destruct (Z.to_int n) as [d|d]; destruct d; simpl;
    try done; apply nilempty_no_underscore.
Qed.

Lemma topic_set_split n e :
  py_split "/" None (topic_set n e) = ["matter"; py_str n; py_str e; "set"].
Proof.
  unfold topic_set.
  change ("matter/" +:+ py_str n +:+ "/" +:+ py_str e +:+ "/set")
    with ("matter" +:+ String "/" (py_str n +:+ String "/" (py_str e +:+ String "/" "set"))).
  rewrite (py_split_app "/" "matter") by done.
  rewrite !py_split_app by apply py_str_no_slash. done.
Qed.

Lemma ha_discovery_topic_inj n e n' e' :
  ha_discovery_topic n e = ha_discovery_topic n' e' -> n = n' /\ e = e'.
Proof.
  intros H. apply (f_equal (py_split "/" None)) in H.
  rewrite !ha_discovery_topic_split in H. injection H as H.
  change (EmptyString +:+ py_str n +:+ "_" +:+ py_str e)
    with (py_str n +:+ String "_" (py_str e)) in H.
  change (EmptyString +:+ py_str n' +:+ "_" +:+ py_str e')
    with (py_str n' +:+ String "_" (py_str e')) in H.
  apply (f_equal (py_split "_" None)) in H.
  rewrite !py_split_app in H by apply py_str_no_underscore.
  rewrite !py_split_free in H by apply py_str_no_underscore.
  injection H as Hn He. by split; apply py_str_inj.
Qed.

(** X1.  The four topic names of [topics.py] and of the discovery
    descriptor tell endpoints apart: each is injective in the pair of node
    and endpoint, and topics of different kinds never coincide. *)
Theorem topic_names_distinct :
  (forall n e n' e', topic_state n e = topic_state n' e' -> n = n' /\ e = e') /\
  (forall n e n' e', topic_available n e = topic_available n' e' -> n = n' /\ e = e') /\
  (forall n e n' e',
     ha_discovery_topic n e = ha_discovery_topic n' e' -> n = n' /\ e = e') /\
  (forall n e n' e', topic_set n e = topic_set n' e' -> n = n' /\ e = e') /\
  (forall n e n' e',
     topic_state n e <> topic_available n' e' /\
     topic_state n e <> topic_set n' e' /\
     topic_available n e <> topic_set n' e' /\
     ha_discovery_topic n e <> topic_state n' e' /\
     ha_discovery_topic n e <> topic_available n' e' /\
     ha_discovery_topic n e <> topic_set n' e').
Proof.
  split_and!.
  - apply topic_state_inj.
  - apply topic_available_inj.
  - apply ha_discovery_topic_inj.
  - intros n e n' e' H. apply (f_equal (py_split "/" None)) in H.
    rewrite !topic_set_split in H. injection H as Hn He.
    by split; apply py_str_inj.
  - intros n e n' e'. split_and!; intros H;
      apply (f_equal (py_split "/" None)) in H;
      rewrite ?topic_state_split, ?topic_available_split, ?topic_set_split,
        ?ha_discovery_topic_split in H; discriminate.
Qed.

Lemma topic_names_distinct_witness : (7 : Z) = 7 /\ (2 : Z) = 2.
Proof.
  apply (proj1 topic_names_distinct 7 2 7 2). reflexivity.
Defined.

(** X2.  [_parse_attr_key] reads back the key written for a triple, and
    accepts no key but one with exactly two slashes. *)
Theorem parse_attr_key_round_trip :
  (forall ep cl at_, _parse_attr_key (attr_key ep cl at_) = Some (ep, cl, at_)) /\
  (forall key t, _parse_attr_key key = Some t -> count_sep "/" key = 2%nat).
Proof.
  split; [apply attr_key_denotes|].
  intros key t. unfold _parse_attr_key.
  pose proof (py_split_length "/" key) as Hlen.
  destruct (decide (count_sep "/" key <= 2)%nat) as [Hle|Hgt].
  - rewrite py_split_bounded_all by done.
    destruct (py_split "/" None key) as [|a [|b [|c [|? ?]]]]; try done.
    simpl in Hlen. lia.
  - destruct (py_split_bounded_rest "/" 2 key) as (pre & rest & -> & Hl & Hr); [lia|].
    destruct pre as [|a [|b [|? ?]]]; try done. simpl.
    destruct (py_int_of_string rest) eqn:Er.
    + apply py_int_no_slash in Er. congruence.
    + by destruct (py_int_of_string a), (py_int_of_string b).
Qed.

Lemma parse_attr_key_round_trip_witness : count_sep "/" "1/6/0" = 2%nat.
Proof.
  apply (proj2 parse_attr_key_round_trip "1/6/0" (1, 6, 0)). reflexivity.
Defined.

(** ** Extraction: errors and empty results *)




Lemma extract_all_app a b :
  extract_all (a ++ b) =
  result_bind (extract_all a) (fun xs =>
  result_bind (extract_all b) (fun ys => Ok (xs ++ ys))).
Proof.
  induction a as [|n a IH]; simpl.
  - by destruct (extract_all b).
  - destruct (extract_onoff_endpoints_from_node n) as [eps|e]; simpl; [|done].
    rewrite IH. destruct (extract_all a) as [xs|e]; simpl; [|done].
    destruct (extract_all b) as [ys|e]; simpl; [|done].
    by rewrite app_assoc.
Qed.

(** X4.  The first loop of [refresh_snapshot] gathers the records node by
    node: it succeeds exactly when every node is extracted, and then the
    result is the concatenation of the per-node lists in the order of the
    nodes; when a node fails, the error of the first failing node leaves
    and the records of the nodes before it are lost with it. *)
Theorem extract_all_concat :
  (forall nodes eps,
     extract_all nodes = Ok eps <->
     exists parts,
       Forall2 (fun n p => extract_onoff_endpoints_from_node n = Ok p) nodes parts /\
       eps = concat parts) /\
  (forall good bad rest e,
     Forall (fun n => exists p, extract_onoff_endpoints_from_node n = Ok p) good ->
     extract_onoff_endpoints_from_node bad = Raise e ->
     extract_all (good ++ bad :: rest) = Raise e).
Proof.
  split.
  - intros nodes. induction nodes as [|n nodes IH]; intros eps; simpl.
    + split.
      * intros [= <-]. exists []. by split; [constructor|].
      * intros (parts & Hf & ->). by inversion Hf.
    + destruct (extract_onoff_endpoints_from_node n) as [p|e] eqn:Hn; simpl.
      * destruct (extract_all nodes) as [more|e] eqn:Hall; simpl.
        -- split.
           ++ intros [= <-]. destruct (proj1 (IH more) eq_refl) as (parts & Hf & ->).
              exists (p :: parts). split; [by constructor|done].
           ++ intros (parts & Hf & ->). inversion Hf as [|? q ? qs Hq Hqs]; subst.
              assert (q = p) as -> by congruence. simpl. do 2 f_equal.
              assert (Hm : Ok more = Ok (concat qs)) by (apply IH; eauto).
              by injection Hm.
        -- split; [done|]. intros (parts & Hf & ->).
           inversion Hf as [|? q ? qs Hq Hqs]; subst.
           assert (Hm : Raise e = Ok (concat qs)) by (apply IH; eauto). done.
      * split; [done|]. intros (parts & Hf & ->).
        inversion Hf as [|? q ? qs Hq Hqs]; subst. congruence.
  - intros good bad rest e Hgood Hbad. rewrite extract_all_app.
    assert (Hg : exists xs, extract_all good = Ok xs).
    { induction Hgood as [|n good [p Hp] _ [xs IH]]; simpl; [by eexists|].
      rewrite Hp, IH. simpl. by eexists. }
    destruct Hg as [xs ->]. simpl. by rewrite Hbad.
Qed.

Lemma extract_all_concat_witness :
  extract_all [snapshot 1 true []; PyNone; snapshot 2 true []]
  = Raise (AttributeError "'NoneType' object has no attribute 'get'").
Proof.
  apply (proj2 extract_all_concat [snapshot 1 true []] PyNone [snapshot 2 true []]).
  - repeat constructor. by eexists.
  - reflexivity.
Defined.

(** ** Refresh: failures, odd replies and the growth of the caches *)

(** X5.  A refresh is all or nothing before it publishes: when the fetch
    raises, or when the extraction of any one node raises, that error
    leaves [refresh_snapshot]; the fetch is the only call made, so nothing
    is published for any node, and both caches are as they were. *)
Theorem refresh_snapshot_fails_whole env w e :
  ((snapshot_nodes env w).1 = Raise e \/
   exists nodes, (snapshot_nodes env w).1 = Ok nodes /\ extract_all nodes = Raise e) ->
  refresh_snapshot env w = (Raise e, set_trace (trace w ++ [EvSnapshot]) w).
Proof.
  intros H. rewrite refresh_snapshot_run. cbn zeta.
  destruct H as [->|(nodes & -> & ->)]; done.
Qed.

Lemma refresh_snapshot_fails_whole_witness :
  refresh_snapshot
    (env_quiet (reply_of [snapshot 1 true [("1/6/0", PyBool true)]; PyDict []]))
    init_world
  = (Raise (TypeError "int() argument must be a string, a bytes-like object or a real number, not 'NoneType'"),
     set_trace (trace init_world ++ [EvSnapshot]) init_world).
Proof.
  apply refresh_snapshot_fails_whole. right.
  exists [snapshot 1 true [("1/6/0", PyBool true)]; PyDict []].
  split; vm_compute; reflexivity.
Defined.

Lemma dict_get_missing items key default :
  dict_has items key = false -> dict_get items key default = default.
Proof.
  induction items as [|[k v] items IH]; simpl; [done|].
  destruct (String.eqb k key); [done|]. apply IH.
Qed.

(** X6.  Replies that carry no list of nodes: when the reply is a
    dictionary that has no [result], or whose [result] is not a list, the
    refresh returns normally after the fetch and publishes nothing; when
    the reply is not a dictionary, an [AttributeError] leaves after the
    fetch. *)
Theorem refresh_snapshot_odd_replies env w :
  (forall items,
     snapshot_reply env (length (trace w)) = Ok (PyDict items) ->
     dict_has items "result" = false \/
     (forall nodes, dict_get items "result" (PyList []) <> PyList nodes) ->
     refresh_snapshot env w = (Ok tt, set_trace (trace w ++ [EvSnapshot]) w)) /\
  (forall reply,
     snapshot_reply env (length (trace w)) = Ok reply ->
     (forall items, reply <> PyDict items) ->
     exists e, exn_type e = "AttributeError" /\
       refresh_snapshot env w = (Raise e, set_trace (trace w ++ [EvSnapshot]) w)).
Proof.
  split.
  - intros items Hr Hres. rewrite refresh_snapshot_run. cbn zeta.
    unfold snapshot_nodes. rewrite Hr. simpl.
    destruct Hres as [Hmiss|Hres].
    + by rewrite dict_get_missing.
    + destruct (dict_get items "result" (PyList [])) as [| | | | |nodes|]; try done.
      by destruct (Hres nodes).
  - intros reply Hr Hnd. eexists. split; [|apply refresh_snapshot_fails_whole; left].
    2:{ unfold snapshot_nodes. rewrite Hr.
        destruct reply as [| | | | | |items]; try reflexivity. by destruct (Hnd items). }
    done.
Qed.

Lemma refresh_snapshot_odd_replies_witness :
  refresh_snapshot (env_quiet (PyDict [("message_id", PyStr "1")])) init_world
    = (Ok tt, set_trace (trace init_world ++ [EvSnapshot]) init_world) /\
  refresh_snapshot (env_quiet (PyDict [("result", PyStr "busy")])) init_world
    = (Ok tt, set_trace (trace init_world ++ [EvSnapshot]) init_world) /\
  exists e, exn_type e = "AttributeError" /\
    refresh_snapshot (env_quiet (PyList [])) init_world
    = (Raise e, set_trace (trace init_world ++ [EvSnapshot]) init_world).
Proof.
  split_and!.
  - apply (proj1 (refresh_snapshot_odd_replies
                    (env_quiet (PyDict [("message_id", PyStr "1")])) init_world)
             [("message_id", PyStr "1")]); [reflexivity|left; reflexivity].
  - apply (proj1 (refresh_snapshot_odd_replies
                    (env_quiet (PyDict [("result", PyStr "busy")])) init_world)
             [("result", PyStr "busy")]); [reflexivity|right; done].
  - apply (proj2 (refresh_snapshot_odd_replies (env_quiet (PyList [])) init_world)
             (PyList [])); [reflexivity|done].
Defined.

Lemma publish_endpoint_domains ep w :
  dom (last_avail (publish_endpoint ep w).2)
    = dom (last_avail w) ∪ {[endpoint_key ep]} /\
  dom (last_state (publish_endpoint ep w).2)
    = dom (last_state w) ∪ (match onoff ep with
                            | Some _ => {[endpoint_key ep]}
                            | None => ∅
                            end).
Proof.
  destruct (publish_endpoint_rule ep w) as (_ & _ & -> & ->).
  unfold endpoint_key. split.
  - case_bool_decide as H.
    + apply elem_of_dom_2 in H. set_solver.
    + rewrite dom_insert_L. set_solver.
  - destruct (onoff ep) as [b|]; [|set_solver].
    case_bool_decide as H.
    + apply elem_of_dom_2 in H. set_solver.
    + rewrite dom_insert_L. set_solver.
Qed.

Lemma publish_loop_domains eps w :
  dom (last_avail (for_each eps publish_endpoint w).2)
    = dom (last_avail w) ∪ list_to_set (endpoint_key <$> eps) /\
  dom (last_state (for_each eps publish_endpoint w).2)
    = dom (last_state w) ∪ list_to_set (known_keys eps).
Proof.
  revert w. induction eps as [|ep eps IH]; intros w; simpl.
  - unfold known_keys. simpl. set_solver.
  - unfold bind. pose proof (publish_endpoint_ok ep w) as Hok.
    destruct (publish_endpoint_domains ep w) as [Ha Hs].
    destruct (publish_endpoint ep w) as [r w1]. simpl in *. subst r.
    destruct (IH w1) as [-> ->]. rewrite Ha, Hs. unfold known_keys.
    rewrite filter_cons. destruct (onoff ep) as [b|] eqn:Hb.
    + rewrite decide_True by eauto. simpl. set_solver.
    + rewrite decide_False by (by intros [? ?]). set_solver.
Qed.

(** X7.  The caches only grow, by the keys observed.  After a refresh
    whose extraction yields the records [eps], the availability cache has
    an entry for exactly the keys it had and the keys of [eps], the state
    cache for exactly the keys it had and the keys of the records of [eps]
    whose on/off value is known; and no refresh, whatever its outcome,
    removes an entry. *)
Theorem refresh_cache_domains env w :
  (forall nodes eps,
     (snapshot_nodes env w).1 = Ok nodes ->
     extract_all nodes = Ok eps ->
     dom (last_avail (refresh_snapshot env w).2)
       = dom (last_avail w) ∪ list_to_set (endpoint_key <$> eps) /\
     dom (last_state (refresh_snapshot env w).2)
       = dom (last_state w) ∪ list_to_set (known_keys eps)) /\
  dom (last_avail w) ⊆ dom (last_avail (refresh_snapshot env w).2) /\
  dom (last_state w) ⊆ dom (last_state (refresh_snapshot env w).2).
Proof.
  assert (Hrun : forall nodes eps,
            (snapshot_nodes env w).1 = Ok nodes ->
            extract_all nodes = Ok eps ->
            dom (last_avail (refresh_snapshot env w).2)
              = dom (last_avail w) ∪ list_to_set (endpoint_key <$> eps) /\
            dom (last_state (refresh_snapshot env w).2)
              = dom (last_state w) ∪ list_to_set (known_keys eps)).
  { intros nodes eps Hs He. rewrite refresh_snapshot_run, Hs, He. cbn zeta.
    destruct eps as [|ep eps]; [unfold known_keys; simpl; set_solver|].
    destruct (publish_loop_domains (ep :: eps)
                (set_trace (trace (set_trace (trace w ++ [EvSnapshot]) w)
                              ++ (discovery_event <$> ep :: eps))
                   (set_trace (trace w ++ [EvSnapshot]) w))) as [-> ->].
    done. }
  split; [done|].
  destruct (snapshot_nodes env w).1 as [nodes|e] eqn:Hs.
  - destruct (extract_all nodes) as [eps|e] eqn:He.
    + destruct (Hrun nodes eps eq_refl He) as [-> ->]. set_solver.
    + rewrite (refresh_snapshot_fails_whole env w e) by eauto. done.
  - rewrite (refresh_snapshot_fails_whole env w e) by eauto. done.
Qed.

Lemma refresh_cache_domains_witness :
  let env := env_quiet (reply_of [snapshot 5 true [("1/6/0", PyBool false)]]) in
  dom (last_avail (refresh_snapshot env init_world).2)
    = dom (last_avail init_world)
      ∪ list_to_set (endpoint_key <$> [mkEndpointInfo 5 1 true (Some false)]) /\
  dom (last_state (refresh_snapshot env init_world).2)
    = dom (last_state init_world)
      ∪ list_to_set (known_keys [mkEndpointInfo 5 1 true (Some false)]).
Proof.
  apply (proj1 (refresh_cache_domains
                  (env_quiet (reply_of [snapshot 5 true [("1/6/0", PyBool false)]]))
                  init_world)
           [snapshot 5 true [("1/6/0", PyBool false)]]
           [mkEndpointInfo 5 1 true (Some false)]).
  - reflexivity.
  - vm_compute. reflexivity.
Defined.

Lemma publish_endpoint_other_key ep w key :
  key <> endpoint_key ep ->
  last_avail (publish_endpoint ep w).2 !! key = last_avail w !! key /\
  last_state (publish_endpoint ep w).2 !! key = last_state w !! key.
Proof.
  intros Hne. destruct (publish_endpoint_rule ep w) as (_ & _ & -> & ->).
  unfold endpoint_key in Hne. split.
  - case_bool_decide; [done|]. by rewrite lookup_insert_ne.
  - destruct (onoff ep) as [b|]; [|done].
    case_bool_decide; [done|]. by rewrite lookup_insert_ne.
Qed.

Lemma publish_endpoint_own_key ep w :
  last_avail (publish_endpoint ep w).2 !! endpoint_key ep = Some (available ep) /\
  (forall b, onoff ep = Some b ->
     last_state (publish_endpoint ep w).2 !! endpoint_key ep = Some b).
Proof.
  destruct (publish_endpoint_rule ep w) as (_ & _ & -> & ->).
  unfold endpoint_key. split.
  - case_bool_decide; [done|]. by rewrite lookup_insert_eq.
  - intros b ->. case_bool_decide; [done|]. by rewrite lookup_insert_eq.
Qed.

Lemma publish_loop_other_key eps w key :
  key ∉ (endpoint_key <$> eps) ->
  last_avail (for_each eps publish_endpoint w).2 !! key = last_avail w !! key /\
  last_state (for_each eps publish_endpoint w).2 !! key = last_state w !! key.
Proof.
  revert w. induction eps as [|ep eps IH]; intros w Hk; simpl; [done|].
  rewrite fmap_cons, not_elem_of_cons in Hk. destruct Hk as [Hne Hk].
  unfold bind. pose proof (publish_endpoint_ok ep w) as Hok.
  destruct (publish_endpoint_other_key ep w key Hne) as [Ha Hs].
  destruct (publish_endpoint ep w) as [r w1]. simpl in *. subst r.
  destruct (IH w1 Hk) as [-> ->]. done.
Qed.

(** The loop does nothing in a world whose caches already hold the values
    of the records. *)
Lemma publish_loop_nothing_new eps w :
  (forall ep, ep ∈ eps ->
     last_avail w !! endpoint_key ep = Some (available ep) /\
     (forall b, onoff ep = Some b -> last_state w !! endpoint_key ep = Some b)) ->
  for_each eps publish_endpoint w = (Ok tt, w).
Proof.
  induction eps as [|ep eps IH]; intros H; simpl; [done|].
  destruct (H ep) as [Ha Hs]; [left|].
  assert (Hstep : publish_endpoint ep w = (Ok tt, w)).
  { unfold publish_endpoint, bind.
    rewrite publish_availability_run, publish_state_run.
    unfold endpoint_key in *. rewrite bool_decide_false by (by intros ?).
    destruct (onoff ep) as [b|]; [|done].
    rewrite bool_decide_false; [done|]. intros Hn. apply Hn. by apply Hs. }
  unfold bind. rewrite Hstep. apply IH. intros ep' Hin. apply H. by right.
Qed.

(** X8.  When no two records share a key (as is the case for the records
    extracted from one node), the second publishing loop leaves in the
    caches the values of the records, and running it again on the same
    records publishes nothing: it returns the world unchanged. *)
Theorem publish_loop_settles :
  (forall eps w,
     NoDup (endpoint_key <$> eps) ->
     let w' := (for_each eps publish_endpoint w).2 in
     (forall ep, ep ∈ eps ->
        last_avail w' !! endpoint_key ep = Some (available ep) /\
        (forall b, onoff ep = Some b -> last_state w' !! endpoint_key ep = Some b)) /\
     for_each eps publish_endpoint w' = (Ok tt, w')) /\
  (forall node infos,
     extract_onoff_endpoints_from_node node = Ok infos ->
     NoDup (endpoint_key <$> infos)).
Proof.
  split.
  - intros eps w Hnd w'.
    assert (Hval : forall ep, ep ∈ eps ->
              last_avail w' !! endpoint_key ep = Some (available ep) /\
              (forall b, onoff ep = Some b ->
                 last_state w' !! endpoint_key ep = Some b)).
    { subst w'. revert w Hnd.
      induction eps as [|ep0 eps IH]; intros w Hnd ep Hin; [by apply elem_of_nil in Hin|].
      rewrite fmap_cons in Hnd. apply NoDup_cons in Hnd as [Hfresh Hnd].
      simpl. unfold bind. pose proof (publish_endpoint_ok ep0 w) as Hok.
      destruct (publish_endpoint_own_key ep0 w) as [Ha Hs].
      destruct (publish_endpoint ep0 w) as [r w1]. simpl in *. subst r.
      apply elem_of_cons in Hin as [->|Hin]; [|by apply IH].
      destruct (publish_loop_other_key eps w1 _ Hfresh) as [-> ->]. done. }
    split; [done|]. by apply publish_loop_nothing_new.
  - intros node infos. unfold extract_onoff_endpoints_from_node.
    destruct (node_fields node) as [[[nid av] items]|e]; simpl; [|done].
    destruct (scan_attrs items) as [eps st]. intros [= <-].
    rewrite <- list_fmap_compose.
    apply NoDup_fmap_2.
    + intros a b [= ->]. done.
    + unfold py_sorted. rewrite merge_sort_Permutation. apply NoDup_elements.
Qed.

Lemma publish_loop_settles_witness :
  let eps := [mkEndpointInfo 5 1 true (Some false); mkEndpointInfo 5 2 true None] in
  let w' := (for_each eps publish_endpoint init_world).2 in
  (forall ep, ep ∈ eps ->
     last_avail w' !! endpoint_key ep = Some (available ep) /\
     (forall b, onoff ep = Some b -> last_state w' !! endpoint_key ep = Some b)) /\
  for_each eps publish_endpoint w' = (Ok tt, w').
Proof.
  apply (proj1 publish_loop_settles
           [mkEndpointInfo 5 1 true (Some false); mkEndpointInfo 5 2 true None]
           init_world).
  apply NoDup_ListNoDup.
  apply List.NoDup_cons; [cbv; intros [H|[]]; discriminate H|].
  apply List.NoDup_cons; [cbv; tauto|]. apply List.NoDup_nil.
Defined.

(** ** The command channel: guards, success, connect and close *)

Lemma sends_app t1 t2 : sends (t1 ++ t2) = (sends t1 + sends t2)%nat.
Proof. unfold sends. by rewrite filter_app, length_app. Qed.

Lemma ensure_connected_no_send env w :
  sends (trace (ensure_connected env w).2) = sends (trace w).
Proof.
  unfold ensure_connected, bind, gets. destruct (client w) as [h|]; [done|].
  destruct (matter_client_installed env) eqn:Hi.
  - rewrite connect_run, external_run by done. cbn [snd trace set_trace].
    rewrite connecting_world_trace, <- app_assoc, sends_app.
    unfold fresh_session_events. destruct (session w) as [[]|]; simpl;
      match goal with
      | |- (_ + ?x)%nat = _ => assert (x = 0%nat) as -> by (by vm_compute)
      end; lia.
  - by rewrite connect_not_installed.
Qed.

(** X9.  [set_onoff] gives up before any send in three cases: with no
    client and no Matter client library a [RuntimeError] leaves and no
    call is made; when [ensure_connected] raises, its error leaves; when
    the action is none of on, off and toggle, a [ValueError] naming the
    action leaves.  [ensure_connected] itself never sends. *)
Theorem set_onoff_rejects_before_sending env node ep act timeout w :
  (client w = None -> matter_client_installed env = false ->
     exists e, exn_type e = "RuntimeError" /\
               set_onoff env node ep act timeout w = (Raise e, w)) /\
  (forall e w1,
     ensure_connected env w = (Raise e, w1) ->
     set_onoff env node ep act timeout w = (Raise e, w1)) /\
  (forall w0,
     ensure_connected env w = (Ok tt, w0) ->
     str_in act ["on"; "off"; "toggle"] = false ->
     set_onoff env node ep act timeout w
     = (Raise (ValueError ("Invalid action: " +:+ act)), w0)) /\
  sends (trace (ensure_connected env w).2) = sends (trace w).
Proof.
  split_and!.
  - intros Hc Hi. eexists. split; [|].
    2:{ unfold set_onoff, bind at 1, ensure_connected, bind at 1, gets.
        rewrite Hc. cbn [fst snd]. by rewrite connect_not_installed. }
    done.
  - intros e w1 He. unfold set_onoff, bind at 1. by rewrite He.
  - intros w0 He Hact. destruct (ensure_connected_client _ _ _ He) as [h Hc].
    unfold set_onoff, bind at 1. rewrite He. unfold bind, gets.
    by rewrite Hc, Hact.
  - apply ensure_connected_no_send.
Qed.

Lemma set_onoff_rejects_before_sending_witness :
  (exists e, exn_type e = "RuntimeError" /\
     set_onoff (mkEnv false (fun _ => Ok PyNone) (fun _ _ => None))
       42 3 "on" DEVICE_COMMAND_TIMEOUT init_world = (Raise e, init_world)) /\
  set_onoff env_server_down 42 3 "on" DEVICE_COMMAND_TIMEOUT init_world
    = (Raise cannot_connect, (ensure_connected env_server_down init_world).2) /\
  set_onoff env_server_back 42 3 "dim" DEVICE_COMMAND_TIMEOUT connected_world
    = (Raise (ValueError ("Invalid action: " +:+ "dim")), connected_world).
Proof.
  split_and!.
  - apply (proj1 (set_onoff_rejects_before_sending
             (mkEnv false (fun _ => Ok PyNone) (fun _ _ => None))
             42 3 "on" DEVICE_COMMAND_TIMEOUT init_world)); reflexivity.
  - apply (proj1 (proj2 (set_onoff_rejects_before_sending env_server_down
             42 3 "on" DEVICE_COMMAND_TIMEOUT init_world))). reflexivity.
  - apply (proj1 (proj2 (proj2 (set_onoff_rejects_before_sending env_server_back
             42 3 "dim" DEVICE_COMMAND_TIMEOUT connected_world)))); reflexivity.
Defined.

(** X10.  When the first send succeeds, [set_onoff] returns normally
    after that one send: there is no reconnect and no second send. *)
Theorem set_onoff_sends_once env node ep act timeout w w0 :
  ensure_connected env w = (Ok tt, w0) ->
  str_in act ["on"; "off"; "toggle"] = true ->
  call_raises env (EvSend node ep act timeout) (length (trace w0)) = None ->
  set_onoff env node ep act timeout w
  = (Ok tt, set_trace (trace w0 ++ [EvSend node ep act timeout]) w0).
Proof.
  intros He Hact Hcall. destruct (ensure_connected_client _ _ _ He) as [h Hc].
  unfold set_onoff, bind at 1. rewrite He. unfold bind, gets.
  rewrite Hc, Hact. cbn [negb]. unfold try_except.
  by rewrite external_run, Hcall.
Qed.

Lemma set_onoff_sends_once_witness :
  set_onoff (env_quiet (reply_of [])) 42 3 "off" DEVICE_COMMAND_TIMEOUT connected_world
  = (Ok tt, set_trace (trace connected_world
                       ++ [EvSend 42 3 "off" DEVICE_COMMAND_TIMEOUT]) connected_world).
Proof.
  apply set_onoff_sends_once; reflexivity.
Defined.

(** X11.  [connect], when the Matter client library is present, always
    builds a new client, opening a session first only if none is open,
    and then calls [client.connect()]; its result is the result of that
    call.  The new client stays in place even when that call raises, so
    that a later [ensure_connected] makes no call at all: a failed
    connection is not attempted again by it. *)
Theorem connect_leaves_client_set env w :
  matter_client_installed env = true ->
  let out := connect env w in
  trace out.2 = trace w ++ fresh_session_events w ++ [EvNewClient; EvClientConnect] /\
  out.1 = match call_raises env EvClientConnect
                  (length (trace w ++ fresh_session_events w ++ [EvNewClient])) with
          | None => Ok tt
          | Some e => Raise e
          end /\
  is_Some (client out.2) /\
  session out.2 = Some false /\
  ensure_connected env out.2 = (Ok tt, out.2).
Proof.
  intros Hi out. subst out. rewrite connect_run, external_run by done.
  cbn [fst snd trace set_trace]. rewrite connecting_world_trace.
  split_and!.
  - by rewrite <- !app_assoc.
  - done.
  - simpl. eauto.
  - unfold connecting_world, fresh_session_events.
    by destruct (session w) as [[]|] eqn:Hs; simpl; rewrite ?Hs.
  - unfold ensure_connected, bind, gets. done.
Qed.

Lemma connect_leaves_client_set_witness :
  let out := connect env_server_down init_world in
  out.1 = Raise cannot_connect /\
  is_Some (client out.2) /\
  ensure_connected env_server_down out.2 = (Ok tt, out.2).
Proof.
  pose proof (connect_leaves_client_set env_server_down init_world eq_refl) as H.
  cbn zeta in H. destruct H as (_ & H1 & H2 & _ & H3). split_and!; done.
Defined.

(** X12.  [MatterCommander.close] always leaves the commander without a
    client, whatever raises.  When it returns normally the session is
    gone as well, and a second [close] makes no call and changes
    nothing. *)
Theorem commander_close_clears env w :
  let out := commander_close env w in
  client out.2 = None /\
  (out.1 = Ok tt ->
     session out.2 = None /\ commander_close env out.2 = (Ok tt, out.2)).
Proof.
  intros out.
  assert (Hidle : forall w', client w' = None -> session w' = None ->
            commander_close env w' = (Ok tt, w')).
  { intros w' Hc Hs. destruct w'. simpl in *. subst.
    unfold commander_close, try_finally, bind, gets, modify. simpl. done. }
  assert (Hfin : forall w1,
            client (close_finally env w1).2 = None /\
            ((close_finally env w1).1 = Ok tt ->
             session (close_finally env w1).2 = None)).
  { intros w1. unfold close_finally, bind, modify, gets. cbn [fst snd].
    change (session (set_client None w1)) with (session w1).
    destruct (session w1) as [[]|]; cbn [when]; try done.
    rewrite external_run.
    by destruct (call_raises env EvSessionClose _). }
  assert (Hout : exists r w1,
            out = match close_finally env w1 with
                  | (Ok _, w'') => (r, w'')
                  | (Raise e, w'') => (Raise e, w'')
                  end).
  { subst out. unfold commander_close, try_finally.
    destruct (bind (gets client) _ w) as [r w1]. by exists r, w1. }
  destruct Hout as (r & w1 & ->). destruct (Hfin w1) as [Hc Hs].
  destruct (close_finally env w1) as [[[]|e] w2]; cbn [fst snd] in *.
  - split; [done|]. intros _. split; [by apply Hs|]. apply Hidle; [done|by apply Hs].
  - split; [done|]. done.
Qed.

Lemma commander_close_clears_witness :
  let out := commander_close (env_quiet (reply_of [])) connected_world in
  session out.2 = None /\
  commander_close (env_quiet (reply_of [])) out.2 = (Ok tt, out.2).
Proof.
  apply (proj2 (commander_close_clears (env_quiet (reply_of [])) connected_world)).
  reflexivity.
Defined.

(** ** Fields that the operations leave alone *)

Section Preserves.

Context {B : Type} (f : World -> B).

Lemma preserves_ret {A} (a : A) : preserves f (ret a).
Proof. done. Qed.

Lemma preserves_raise {A} e : preserves f (@raise A e).
Proof. done. Qed.

Lemma preserves_lift {A} (r : Result A) : preserves f (lift r).
Proof. done. Qed.

Lemma preserves_gets {A} (g : World -> A) : preserves f (gets g).
Proof. done. Qed.

Lemma preserves_bind {A C} (m : M A) (k : A -> M C) :
  preserves f m -> (forall a, preserves f (k a)) -> preserves f (bind m k).
Proof.
  intros Hm Hk w. unfold bind. specialize (Hm w).
  destruct (m w) as [[a|e] w']; simpl in *; [|done]. by rewrite Hk.
Qed.

Lemma preserves_try_except {A} (m : M A) h :
  preserves f m -> (forall e, preserves f (h e)) -> preserves f (try_except m h).
Proof.
  intros Hm Hh w. unfold try_except. specialize (Hm w).
  destruct (m w) as [[a|e] w']; simpl in *; [done|]. by rewrite Hh.
Qed.

Lemma preserves_try_finally {A} (m : M A) fin :
  preserves f m -> preserves f fin -> preserves f (try_finally m fin).
Proof.
  intros Hm Hf w. unfold try_finally. specialize (Hm w).
  destruct (m w) as [r w']; simpl in *. specialize (Hf w').
  destruct (fin w') as [[[]|e] w'']; simpl in *; congruence.
Qed.

Lemma preserves_when b m : preserves f m -> preserves f (when b m).
Proof. by destruct b. Qed.

Lemma preserves_for_each {A} (l : list A) body :
  (forall x, preserves f (body x)) -> preserves f (for_each l body).
Proof.
  intros Hb. induction l; simpl; [done|].
  apply preserves_bind; [apply Hb|done].
Qed.

Lemma preserves_modify g :
  (forall w, f (g w) = f w) -> preserves f (modify g).
Proof. intros Hg w. apply Hg. Qed.

(** From here on [f] is a field that recording a call does not touch. *)
Hypothesis f_trace : forall t w, f (set_trace t w) = f w.

Lemma preserves_emit ev : preserves f (emit ev).
Proof. intros w. apply f_trace. Qed.

Lemma preserves_external env ev : preserves f (external env ev).
Proof. intros w. rewrite external_run. apply f_trace. Qed.

Lemma preserves_snapshot_nodes env : preserves f (snapshot_nodes env).
Proof. intros w. rewrite snapshot_nodes_world. apply f_trace. Qed.

Lemma preserves_mqtt_close env : preserves f (mqtt_close env).
Proof.
  unfold mqtt_close. apply preserves_try_finally; apply preserves_external.
Qed.

Lemma preserves_ws_close env : preserves f (ws_close env).
Proof.
  unfold ws_close.
  repeat first [apply preserves_bind; [|intros ?] | apply preserves_gets
               | apply preserves_when | apply preserves_external].
Qed.

(** ... nor do the commander and the caches. *)
Hypothesis f_client : forall c w, f (set_client c w) = f w.
Hypothesis f_session : forall s w, f (set_session s w) = f w.
Hypothesis f_last_state : forall m w, f (set_last_state m w) = f w.
Hypothesis f_last_avail : forall m w, f (set_last_avail m w) = f w.

Ltac keep :=
  repeat first
    [ apply preserves_bind; [|intros ?]
    | apply preserves_try_except; [|intros ?]
    | apply preserves_gets | apply preserves_ret | apply preserves_raise
    | apply preserves_lift | apply preserves_when
    | apply preserves_emit | apply preserves_external
    | apply preserves_snapshot_nodes
    | apply preserves_modify; intros ?;
        rewrite ?f_trace, ?f_client, ?f_session, ?f_last_state, ?f_last_avail;
        reflexivity
    | apply preserves_for_each; intros ? ].

Lemma preserves_connect env : preserves f (connect env).
Proof. unfold connect. destruct (negb _); keep. Qed.

Lemma preserves_reconnect env node ep act timeout :
  preserves f (_reconnect_and_retry env node ep act timeout).
Proof. unfold _reconnect_and_retry. keep. apply preserves_connect. Qed.

Lemma preserves_ensure_connected env : preserves f (ensure_connected env).
Proof.
  unfold ensure_connected. apply preserves_bind; [apply preserves_gets|].
  intros [h|]; [apply preserves_ret|apply preserves_connect].
Qed.

Lemma preserves_set_onoff env node ep act timeout :
  preserves f (set_onoff env node ep act timeout).
Proof.
  unfold set_onoff.
  apply preserves_bind; [apply preserves_ensure_connected|intros _].
  apply preserves_bind; [apply preserves_gets|].
  intros [h|]; [|apply preserves_raise].
  destruct (negb _); [apply preserves_raise|].
  apply preserves_try_except; [apply preserves_external|].
  intros e. destruct (is_connection_loss e);
    [apply preserves_reconnect|apply preserves_raise].
Qed.

Lemma preserves_publish_endpoint ep : preserves f (publish_endpoint ep).
Proof.
  unfold publish_endpoint, publish_availability, publish_state, publish_retained.
  keep. destruct (onoff ep); keep.
Qed.

Lemma preserves_discovery ep : preserves f (publish_ha_discovery ep).
Proof. unfold publish_ha_discovery, publish_retained. apply preserves_emit. Qed.

Lemma preserves_refresh env : preserves f (refresh_snapshot env).
Proof.
  unfold refresh_snapshot.
  apply preserves_bind; [apply preserves_snapshot_nodes|intros nodes].
  apply preserves_bind; [apply preserves_lift|intros eps].
  destruct eps as [|ep eps]; [apply preserves_ret|].
  apply preserves_bind; [|intros _];
    apply preserves_for_each; intros x;
    [apply preserves_discovery|apply preserves_publish_endpoint].
Qed.

Lemma preserves_process_command env cmd : preserves f (process_command env cmd).
Proof.
  unfold process_command, optimistic_publish, send_to_matter, publish_retained.
  apply preserves_bind; [keep|intros _].
  apply preserves_try_except; [|intros; apply preserves_ret].
  apply preserves_bind; [apply preserves_gets|].
  intros [h|]; [|apply preserves_raise].
  apply preserves_bind; [apply preserves_set_onoff|intros _].
  apply preserves_bind; [apply preserves_emit|intros _].
  apply preserves_refresh.
Qed.

End Preserves.

(** ** The consumer of the command queue *)

Lemma process_command_ok env cmd w : (process_command env cmd w).1 = Ok tt.
Proof.
  unfold process_command, bind. rewrite optimistic_publish_run.
  unfold try_except.
  destruct (send_to_matter env cmd _) as [[[]|e] w1]; done.
Qed.

Lemma process_command_no_client env cmd w :
  client w = None ->
  process_command env cmd w
  = (Ok tt, set_trace (trace w ++ optimistic_events cmd) w).
Proof.
  intros Hc. unfold process_command, bind. rewrite optimistic_publish_run.
  unfold optimistic_events, try_except, send_to_matter, bind, gets.
  destruct (str_in (action cmd) ["on"; "off"]); cbn [client set_trace].
  - by rewrite Hc.
  - rewrite Hc, app_nil_r. by destruct w.
Qed.

(** One turn of the loop of the consumer. *)
Lemma consumer_step env n w :
  command_consumer_task env (S n) w =
  if running w then
    match cmd_queue w with
    | [] => (Ok tt, w)
    | cmd :: rest =>
        command_consumer_task env n (process_command env cmd (set_cmd_queue rest w)).2
    end
  else (Ok tt, w).
Proof.
  simpl. unfold bind at 1, gets. cbn [fst snd]. unfold bind at 1. cbn [fst snd].
  destruct (running w); [|done]. destruct (cmd_queue w) as [|cmd rest]; [done|].
  unfold bind at 1, modify. cbn [fst snd]. unfold bind.
  pose proof (process_command_ok env cmd (set_cmd_queue rest w)) as Hok.
  destruct (process_command env cmd (set_cmd_queue rest w)) as [r w1].
  simpl in Hok. by subst r.
Qed.

(** X13.  The consumer outlives every failure and takes the commands in
    the order of the queue: a run of [n] turns of its loop returns
    normally whatever the calls of the commander and of the refresh do;
    it leaves the running flag and the list of tasks as they were; and
    when the application is running it has removed the first [n] commands
    of the queue (all of them when there are fewer), the rest staying in
    order, while a stopped application leaves the queue untouched. *)
Theorem consumer_takes_in_turn env n w :
  let out := command_consumer_task env n w in
  out.1 = Ok tt /\
  running out.2 = running w /\
  tasks out.2 = tasks w /\
  cmd_queue out.2 = (if running w then drop n (cmd_queue w) else cmd_queue w).
Proof.
  revert w. induction n as [|n IH]; intros w.
  { simpl. rewrite drop_0. by destruct (running w). }
  cbn zeta. rewrite consumer_step.
  destruct (running w) eqn:Hr; [|done].
  destruct (cmd_queue w) as [|cmd rest] eqn:Hq; [done|].
  pose proof (preserves_process_command running (fun _ _ => eq_refl)
                (fun _ _ => eq_refl) (fun _ _ => eq_refl) (fun _ _ => eq_refl)
                (fun _ _ => eq_refl) env cmd (set_cmd_queue rest w)) as Hrun.
  pose proof (preserves_process_command tasks (fun _ _ => eq_refl)
                (fun _ _ => eq_refl) (fun _ _ => eq_refl) (fun _ _ => eq_refl)
                (fun _ _ => eq_refl) env cmd (set_cmd_queue rest w)) as Htasks.
  pose proof (preserves_process_command cmd_queue (fun _ _ => eq_refl)
                (fun _ _ => eq_refl) (fun _ _ => eq_refl) (fun _ _ => eq_refl)
                (fun _ _ => eq_refl) env cmd (set_cmd_queue rest w)) as Hqueue.
  destruct (process_command env cmd (set_cmd_queue rest w)) as [r w1].
  simpl in Hrun, Htasks, Hqueue.
  destruct (IH w1) as (H1 & H2 & H3 & H4). cbn [snd].
  rewrite H1, H2, H3, H4, Hrun, Htasks, Hqueue. cbn [running tasks set_cmd_queue].
  by rewrite Hr.
Qed.

(** X14.  Without a commander client the consumer still publishes the
    state each on or off command asks for, and does nothing else: in a
    running application whose commander has no client, [n] turns of the
    loop add to the trace exactly the optimistic publishes of the first
    [n] queued commands, in order; no command is sent, no snapshot is
    fetched, the caches stay as they were and the commander stays without
    a client. *)
Theorem consumer_without_commander env n w :
  client w = None ->
  running w = true ->
  let out := command_consumer_task env n w in
  trace out.2 = trace w ++ concat (optimistic_events <$> take n (cmd_queue w)) /\
  client out.2 = None /\
  last_state out.2 = last_state w /\
  last_avail out.2 = last_avail w.
Proof.
  revert w. induction n as [|n IH]; intros w Hc Hr.
  { simpl. by rewrite app_nil_r. }
  cbn zeta. rewrite consumer_step, Hr.
  destruct (cmd_queue w) as [|cmd rest] eqn:Hq.
  { simpl. by rewrite app_nil_r. }
  rewrite process_command_no_client by done. cbn [fst snd].
  destruct (IH (set_trace (trace (set_cmd_queue rest w) ++ optimistic_events cmd)
                  (set_cmd_queue rest w))) as (H1 & H2 & H3 & H4); [done..|].
  rewrite H1, H2, H3, H4. cbn [trace cmd_queue set_trace set_cmd_queue last_state last_avail].
  rewrite <- app_assoc. done.
Qed.

Lemma consumer_without_commander_witness :
  trace (command_consumer_task (env_quiet (reply_of [])) 2
           (set_cmd_queue [mkMqttCommand 42 3 "on"; mkMqttCommand 42 3 "toggle"]
              init_world)).2
  = [EvPublish "matter/42/3/state" "ON"].
Proof.
  apply (proj1 (consumer_without_commander (env_quiet (reply_of [])) 2
                  (set_cmd_queue [mkMqttCommand 42 3 "on"; mkMqttCommand 42 3 "toggle"]
                     init_world) eq_refl eq_refl)).
Defined.





(** ** The order of the shutdown *)

Lemma for_each_emit_run {A} (f : A -> Event) l w :
  for_each l (fun t => emit (f t)) w
  = (Ok tt, set_trace (trace w ++ (f <$> l)) w).
Proof.
  revert w. induction l as [|t l IH]; intros w; simpl.
  - by rewrite app_nil_r, set_trace_same.
  - unfold bind. simpl. rewrite IH. simpl. by rewrite <- app_assoc.
Qed.

Lemma for_each_await_run env l w :
  for_each l (fun t => try_except (external env (EvTaskAwait t)) (fun _ => ret tt)) w
  = (Ok tt, set_trace (trace w ++ (EvTaskAwait <$> l)) w).
Proof.
  revert w. induction l as [|t l IH]; intros w; simpl.
  - by rewrite app_nil_r, set_trace_same.
  - unfold bind, try_except. rewrite external_run.
    destruct (call_raises env _ _); simpl; rewrite IH; simpl;
      by rewrite <- app_assoc.
Qed.

Lemma mqtt_close_guarded env w :
  try_except (mqtt_close env) (fun _ => ret tt) w
  = (Ok tt, set_trace (trace w ++ [EvMqttLoopStop; EvMqttDisconnect]) w).
Proof.
  unfold try_except, mqtt_close, try_finally. rewrite !external_run.
  cbn [fst snd trace set_trace]. rewrite <- app_assoc.
  destruct (call_raises env EvMqttLoopStop _),
           (call_raises env EvMqttDisconnect _); done.
Qed.

Lemma ws_close_guarded env w :
  exists ws_calls,
    ws_calls `sublist_of` [EvWsClose; EvWsSessionClose] /\
    try_except (ws_close env) (fun _ => ret tt) w
    = (Ok tt, set_trace (trace w ++ ws_calls) w).
Proof.
  unfold try_except, ws_close, bind, gets, when. cbn [fst snd].
  destruct (ws_open w) eqn:Ho.
  - rewrite external_run. destruct (call_raises env EvWsClose _).
    + exists [EvWsClose]. split; [|done]. apply sublist_skip, sublist_nil_l.
    + cbn [fst snd ws_session set_trace]. destruct (ws_session w).
      * rewrite external_run. cbn [fst snd trace set_trace]. rewrite <- app_assoc.
        exists [EvWsClose; EvWsSessionClose]. split; [done|].
        by destruct (call_raises env EvWsSessionClose _).
      * exists [EvWsClose]. split; [|done]. apply sublist_skip, sublist_nil_l.
  - unfold ret at 1. destruct (ws_session w).
    + rewrite external_run. exists [EvWsSessionClose].
      split; [by apply sublist_cons|].
      by destruct (call_raises env EvWsSessionClose _).
    + exists []. split; [apply sublist_nil_l|].
      by rewrite app_nil_r, set_trace_same.
Qed.

Lemma try_finally_guarded (m fin : M unit) w :
  (try_except (try_finally m fin) (fun _ => ret tt) w).1 = Ok tt /\
  (try_except (try_finally m fin) (fun _ => ret tt) w).2 = (fin (m w).2).2.
Proof.
  unfold try_except, try_finally. destruct (m w) as [r w1]. cbn [snd].
  destruct (fin w1) as [[[]|e] w2]; destruct r as [[]|]; done.
Qed.

Lemma close_finally_run env w1 :
  client (close_finally env w1).2 = None /\
  trace (close_finally env w1).2
  = trace w1 ++ match session w1 with Some false => [EvSessionClose] | _ => [] end.
Proof.
  unfold close_finally, bind, modify, gets. cbn [fst snd].
  change (session (set_client None w1)) with (session w1).
  destruct (session w1) as [[]|]; cbn [when]; try (by rewrite app_nil_r).
  rewrite external_run.
  by destruct (call_raises env EvSessionClose _).
Qed.

Lemma disconnect_if_client_run env w :
  ((c <~ gets client ;;
    when (bool_decide (is_Some c)) (external env EvClientDisconnect)) w).2
  = set_trace (trace w ++ (if bool_decide (is_Some (client w))
                           then [EvClientDisconnect] else [])) w.
Proof.
  unfold bind, gets. cbn [fst snd]. destruct (client w) as [h|].
  - rewrite bool_decide_true by eauto. cbn [when]. by rewrite external_run.
  - rewrite bool_decide_false by (by intros [? ?]). cbn [when ret snd].
    by rewrite app_nil_r, set_trace_same.
Qed.

Lemma commander_close_guarded env w :
  let out := try_except (commander_close env) (fun _ => ret tt) w in
  out.1 = Ok tt /\ client out.2 = None /\
  trace out.2 = trace w ++ commander_close_events w.
Proof.
  cbn zeta.
  destruct (try_finally_guarded
              (c <~ gets client ;;
               when (bool_decide (is_Some c)) (external env EvClientDisconnect))
              (close_finally env) w) as [Hok Hw].
  rewrite disconnect_if_client_run in Hw.
  assert (E : (try_except (commander_close env) (fun _ => ret tt) w).2
              = (close_finally env
                   (set_trace (trace w ++ (if bool_decide (is_Some (client w))
                                           then [EvClientDisconnect] else [])) w)).2)
    by exact Hw.
  split; [exact Hok|]. rewrite E.
  match goal with
  | |- context [close_finally env ?w1] =>
      destruct (close_finally_run env w1) as [Hc Ht]
  end.
  split; [done|]. rewrite Ht. cbn [trace session set_trace].
  unfold commander_close_events. by rewrite <- app_assoc.
Qed.

Lemma shutdown_steps_run env w :
  exists ws_calls,
    ws_calls `sublist_of` [EvWsClose; EvWsSessionClose] /\
    shutdown_steps env w
    = try_except (commander_close env) (fun _ => ret tt)
        (set_trace (trace w ++ (EvTaskCancel <$> tasks w)
                            ++ (EvTaskAwait <$> tasks w)
                            ++ [EvMqttLoopStop; EvMqttDisconnect]
                            ++ ws_calls) w).
Proof.
  unfold shutdown_steps. unfold bind at 1, gets. cbn [fst snd].
  unfold bind at 1. rewrite for_each_emit_run. cbn [fst snd].
  unfold bind at 1. rewrite for_each_await_run. cbn [fst snd trace set_trace].
  unfold bind at 1. rewrite mqtt_close_guarded. cbn [fst snd trace set_trace].
  unfold bind.
  match goal with
  | |- context [try_except (ws_close env) _ ?w1] =>
      destruct (ws_close_guarded env w1) as (ws_calls & Hsub & ->)
  end.
  exists ws_calls. split; [done|]. cbn [fst snd trace set_trace].
  by rewrite <- !app_assoc.
Qed.

(** X16.  The order of the shutdown.  The first [stop] of a running
    application cancels every task, then awaits every task, then stops
    the MQTT loop and disconnects from the broker, then closes the
    WebSocket client, then closes the commander, and no failure of an
    earlier step keeps a later one from being attempted: every await is
    made, the broker is disconnected also when stopping the loop raises,
    and the commander is closed with exactly the calls its state asks for
    whatever the WebSocket close did.  The WebSocket part is some of
    [close] on the socket and [close] on its session, in this order.
    Afterwards the commander has no client. *)
Theorem stop_shutdown_order env w :
  running w = true ->
  let out := stop env w in
  out.1 = Ok tt /\
  client out.2 = None /\
  exists ws_calls,
    ws_calls `sublist_of` [EvWsClose; EvWsSessionClose] /\
    trace out.2
    = trace w ++ (EvTaskCancel <$> tasks w)
              ++ (EvTaskAwait <$> tasks w)
              ++ [EvMqttLoopStop; EvMqttDisconnect]
              ++ ws_calls
              ++ commander_close_events w.
Proof.
  intros Hr. cbn zeta. rewrite stop_unfold, Hr.
  destruct (shutdown_steps_run env (set_running false w)) as (ws_calls & Hsub & ->).
  cbn [trace tasks set_running].
  match goal with
  | |- context [try_except _ _ ?w1] =>
      destruct (commander_close_guarded env w1) as (Hok & Hc & Ht)
  end.
  split; [done|]. split; [done|]. exists ws_calls. split; [done|].
  rewrite Ht. cbn [trace set_trace]. unfold commander_close_events.
  cbn [client session set_trace set_running]. by rewrite <- !app_assoc.
Qed.

Lemma stop_shutdown_order_witness :
  exists ws_calls,
    ws_calls `sublist_of` [EvWsClose; EvWsSessionClose] /\
    trace (stop env_server_down
             (mkWorld true ∅ ∅ [] ["refresh"; "cmd_consumer"] (Some 0%nat)
                (Some false) false false [])).2
    = [EvTaskCancel "refresh"; EvTaskCancel "cmd_consumer";
       EvTaskAwait "refresh"; EvTaskAwait "cmd_consumer";
       EvMqttLoopStop; EvMqttDisconnect] ++ ws_calls
      ++ [EvClientDisconnect; EvSessionClose].
Proof.
  apply (proj2 (proj2 (stop_shutdown_order env_server_down
                  (mkWorld true ∅ ∅ [] ["refresh"; "cmd_consumer"] (Some 0%nat)
                (Some false) false false [])
                  eq_refl))).
Defined.

(** ** The periodic refresh *)

Lemma refresh_snapshot_fetch_raises env w e :
  snapshot_reply env (length (trace w)) = Raise e ->
  refresh_snapshot env w = (Raise e, set_trace (trace w ++ [EvSnapshot]) w).
Proof.
  intros He. rewrite refresh_snapshot_run. unfold snapshot_nodes.
  by rewrite He.
Qed.

(** One round of the loop of the periodic refresh. *)
Lemma periodic_step env n w :
  periodic_refresh_task env (S n) w =
  if running w then
    match refresh_snapshot env
            (set_trace (trace w ++ [EvSleep SNAPSHOT_REFRESH_INTERVAL]) w) with
    | (Ok _, w2) => periodic_refresh_task env n w2
    | (Raise e, w2) =>
        if closing_noise e then (Ok tt, w2) else periodic_refresh_task env n w2
    end
  else (Ok tt, w).
Proof.
  simpl. unfold bind at 1, gets. cbn [fst snd].
  destruct (running w) eqn:Hr; [|done]. cbn [negb].
  unfold bind at 1, emit, modify. cbn [fst snd].
  unfold bind at 1. cbn [fst snd running set_trace]. rewrite Hr. cbn [negb].
  unfold bind at 1, try_except. unfold bind at 1.
  pose proof (preserves_refresh running (fun _ _ => eq_refl)
                (fun _ _ => eq_refl) (fun _ _ => eq_refl) env
                (set_trace (trace w ++ [EvSleep SNAPSHOT_REFRESH_INTERVAL]) w)) as Hrun.
  destruct (refresh_snapshot env _) as [[[]|e] w2]; cbn [fst snd] in *; [done|].
  unfold bind at 1. cbn [fst snd]. rewrite Hrun. cbn [running set_trace].
  rewrite Hr. cbn [negb]. by destruct (closing_noise e).
Qed.

Lemma periodic_frame env n w :
  (periodic_refresh_task env n w).1 = Ok tt /\
  running (periodic_refresh_task env n w).2 = running w /\
  cmd_queue (periodic_refresh_task env n w).2 = cmd_queue w /\
  (running w = false -> (periodic_refresh_task env n w).2 = w).
Proof.
  revert w. induction n as [|n IH]; intros w; [done|].
  rewrite periodic_step. destruct (running w) eqn:Hr; [|done].
  pose proof (preserves_refresh running (fun _ _ => eq_refl)
                (fun _ _ => eq_refl) (fun _ _ => eq_refl) env
                (set_trace (trace w ++ [EvSleep SNAPSHOT_REFRESH_INTERVAL]) w)) as Hrun.
  pose proof (preserves_refresh cmd_queue (fun _ _ => eq_refl)
                (fun _ _ => eq_refl) (fun _ _ => eq_refl) env
                (set_trace (trace w ++ [EvSleep SNAPSHOT_REFRESH_INTERVAL]) w)) as Hq.
  destruct (refresh_snapshot env _) as [[[]|e] w2]; cbn [fst snd] in *.
  - destruct (IH w2) as (H1 & H2 & H3 & _). rewrite H1, H2, H3, Hrun, Hq.
    cbn [running cmd_queue set_trace]. by rewrite Hr.
  - destruct (closing_noise e).
    + cbn [fst snd]. rewrite Hrun, Hq.
      cbn [running cmd_queue set_trace]. by rewrite Hr.
    + destruct (IH w2) as (H1 & H2 & H3 & _). rewrite H1, H2, H3, Hrun, Hq.
      cbn [running cmd_queue set_trace]. by rewrite Hr.
Qed.

Lemma contains_startswith_app p q s :
  py_startswith (p +:+ q) s = true -> py_contains q s = true.
Proof.
  revert s. induction p as [|c p IH]; intros s.
  - change (EmptyString +:+ q) with q. intros H.
    destruct s; simpl; by rewrite H.
  - change (String c p +:+ q) with (String c (p +:+ q)).
    destruct s as [|d s]; simpl; [done|].
    intros [_ H]%andb_prop. rewrite (IH s H). apply orb_true_r.
Qed.

Lemma contains_suffix p q s :
  py_contains (p +:+ q) s = true -> py_contains q s = true.
Proof.
  induction s as [|d s IH].
  - simpl. rewrite orb_false_r. apply contains_startswith_app.
  - change (py_contains (p +:+ q) (String d s))
      with (py_startswith (p +:+ q) (String d s) || py_contains (p +:+ q) s).
    intros [H|H]%orb_prop; [by eapply contains_startswith_app|].
    change (py_contains q (String d s))
      with (py_startswith q (String d s) || py_contains q s).
    rewrite (IH H). apply orb_true_r.
Qed.

(** X17.  The periodic refresh outlives the failures of its refreshes.
    A run of any number of rounds returns normally and leaves the running
    flag and the command queue alone; in a stopped application it makes no
    call at all.  Each round sleeps before it fetches, so the first
    refresh comes one interval after the start of the task.  When every
    fetch fails with an error that is not the noise of a closing
    transport, the task goes on round after round: [n] rounds make [n]
    sleeps and [n] fetches, in alternation.  When a fetch fails with that
    noise, the task ends on the spot whatever the number of rounds left.
    The second of the two texts the test looks for contains the first, so
    the test is the search for [closing transport] alone. *)
Theorem periodic_refresh_outlives_failures env n w :
  let out := periodic_refresh_task env n w in
  out.1 = Ok tt /\
  running out.2 = running w /\
  cmd_queue out.2 = cmd_queue w /\
  (running w = false -> out.2 = w) /\
  (forall e,
     running w = true ->
     (forall k, snapshot_reply env k = Raise e) ->
     closing_noise e = false ->
     out.2 = set_trace (trace w ++ concat (replicate n refresh_round)) w) /\
  (forall e m,
     running w = true ->
     n = S m ->
     snapshot_reply env (S (length (trace w))) = Raise e ->
     closing_noise e = true ->
     out.2 = set_trace (trace w ++ refresh_round) w) /\
  (forall e, closing_noise e = py_contains "closing transport" (exn_msg e)).
Proof.
  cbn zeta. destruct (periodic_frame env n w) as (H1 & H2 & H3 & H4).
  split_and!; try done.
  - intros e Hr Hfail Hquiet. clear H1 H2 H3 H4. revert w Hr.
    induction n as [|n IH]; intros w Hr.
    { simpl. by rewrite app_nil_r, set_trace_same. }
    rewrite periodic_step, Hr, (refresh_snapshot_fetch_raises _ _ e) by apply Hfail.
    rewrite Hquiet, IH by done. cbn [trace set_trace concat replicate].
    unfold refresh_round at 2. by rewrite <- !app_assoc.
  - intros e m Hr -> Hfail Hnoise.
    rewrite periodic_step, Hr, (refresh_snapshot_fetch_raises _ _ e).
    + rewrite Hnoise. cbn [snd trace set_trace]. unfold refresh_round.
      by rewrite <- app_assoc.
    + cbn [trace set_trace]. rewrite length_app. simpl.
      by rewrite Nat.add_1_r.
  - intros e. unfold closing_noise.
    destruct (py_contains "closing transport" (exn_msg e)) eqn:E1; [done|].
    destruct (py_contains "Cannot write to closing transport" (exn_msg e)) eqn:E2;
      [|done].
    apply (contains_suffix "Cannot write to " "closing transport") in E2.
    congruence.
Qed.

Lemma periodic_refresh_outlives_failures_witness :
  (periodic_refresh_task (env_fetch_fails cannot_connect) 3 init_world).2
  = set_trace (concat (replicate 3 refresh_round)) init_world /\
  (periodic_refresh_task
     (env_fetch_fails (RuntimeError "Cannot write to closing transport"))
     3 init_world).2
  = set_trace refresh_round init_world.
Proof.
  split.
  - apply (proj1 (proj2 (proj2 (proj2 (proj2
             (periodic_refresh_outlives_failures
                (env_fetch_fails cannot_connect) 3 init_world)))))
             cannot_connect eq_refl (fun _ => eq_refl) eq_refl).
  - apply (proj1 (proj2 (proj2 (proj2 (proj2 (proj2
             (periodic_refresh_outlives_failures
                (env_fetch_fails (RuntimeError "Cannot write to closing transport"))
                3 init_world))))))
             (RuntimeError "Cannot write to closing transport") 2%nat
             eq_refl eq_refl eq_refl eq_refl).
Defined.

(** ** What the payload normalisation is blind to *)

Lemma py_upper_char_isspace c : py_isspace (py_upper_char c) = py_isspace c.
Proof. by destruct c as [[] [] [] [] [] [] [] []]. Qed.

Lemma py_upper_char_idemp c : py_upper_char (py_upper_char c) = py_upper_char c.
Proof. by destruct c as [[] [] [] [] [] [] [] []]. Qed.

Lemma py_upper_idemp s : py_upper (py_upper s) = py_upper s.
Proof.
  induction s as [|c s IH]; simpl; [done|].
  by rewrite py_upper_char_idemp, IH.
Qed.

Lemma py_upper_lstrip s : py_upper (py_lstrip s) = py_lstrip (py_upper s).
Proof.
  induction s as [|c s IH]; simpl; [done|].
  rewrite py_upper_char_isspace. by destruct (py_isspace c).
Qed.

Lemma py_upper_rstrip s : py_upper (py_rstrip s) = py_rstrip (py_upper s).
Proof.
  induction s as [|c s IH]; simpl; [done|].
  rewrite <- IH, py_upper_char_isspace.
  destruct (py_rstrip s); simpl; [|done]. by destruct (py_isspace c).
Qed.

Lemma py_upper_strip s : py_upper (py_strip s) = py_strip (py_upper s).
Proof. unfold py_strip. by rewrite py_upper_rstrip, py_upper_lstrip. Qed.

Lemma py_lstrip_all_space l : py_all_space l = true -> py_lstrip l = EmptyString.
Proof.
  induction l as [|c l IH]; simpl; [done|].
  intros [-> Hl]%andb_prop. by apply IH.
Qed.

Lemma py_rstrip_all_space r : py_all_space r = true -> py_rstrip r = EmptyString.
Proof.
  induction r as [|c r IH]; simpl; [done|].
  intros [-> Hr]%andb_prop. by rewrite IH.
Qed.

Lemma py_lstrip_app l s :
  py_all_space l = true -> py_lstrip (l +:+ s) = py_lstrip s.
Proof.
  induction l as [|c l IH]; [done|].
  change (String c l +:+ s) with (String c (l +:+ s)). simpl.
  intros [-> Hl]%andb_prop. by apply IH.
Qed.

Lemma py_rstrip_app s r :
  py_all_space r = true -> py_rstrip (s +:+ r) = py_rstrip s.
Proof.
  intros Hr. induction s as [|c s IH].
  - change (EmptyString +:+ r) with r. by rewrite py_rstrip_all_space.
  - change (String c s +:+ r) with (String c (s +:+ r)). simpl. by rewrite IH.
Qed.

(** What [lstrip] leaves of a string followed by white space has the same
    [rstrip] as what it leaves of the string alone. *)
Lemma py_strip_app_r s r :
  py_all_space r = true -> py_strip (s +:+ r) = py_strip s.
Proof.
  intros Hr. unfold py_strip. induction s as [|c s IH].
  - change (EmptyString +:+ r) with r.
    by rewrite py_lstrip_all_space.
  - change (String c s +:+ r) with (String c (s +:+ r)). simpl.
    destruct (py_isspace c); [done|].
    change (String c (s +:+ r)) with (String c s +:+ r).
    by apply py_rstrip_app.
Qed.

Lemma py_strip_padded l s r :
  py_all_space l = true -> py_all_space r = true ->
  py_strip (l +:+ s +:+ r) = py_strip s.
Proof.
  intros Hl Hr. unfold py_strip at 1. rewrite py_lstrip_app by done.
  by apply py_strip_app_r.
Qed.

Lemma on_message_by_payload topic p q w :
  normalize_payload p = normalize_payload q ->
  _on_message (mkMqttMessage topic p) w = _on_message (mkMqttMessage topic q) w.
Proof. intros H. rewrite !on_message_run. simpl. by rewrite H. Qed.

(** X18.  What the callback is blind to in a payload.  Two messages on
    the same topic are handled alike when their payloads differ only by
    the case of their letters, or only by white space at the two ends,
    whatever the topic and the payload are; and a message without payload,
    or with an empty one, or with white space only, is dropped. *)
Theorem on_message_payload_blind topic w :
  (forall p q,
     py_upper p = py_upper q ->
     _on_message (mkMqttMessage topic (Some p)) w
     = _on_message (mkMqttMessage topic (Some q)) w) /\
  (forall l p r,
     py_all_space l = true -> py_all_space r = true ->
     _on_message (mkMqttMessage topic (Some (l +:+ p +:+ r))) w
     = _on_message (mkMqttMessage topic (Some p)) w) /\
  _on_message (mkMqttMessage topic None) w = (Ok tt, w) /\
  (forall p,
     py_all_space p = true ->
     _on_message (mkMqttMessage topic (Some p)) w = (Ok tt, w)).
Proof.
  assert (Hnone : _on_message (mkMqttMessage topic None) w = (Ok tt, w)).
  { rewrite on_message_run. simpl.
    destruct (py_split "/" None topic) as [|p0 [|p1 [|p2 [|p3 [|? ?]]]]]; try done.
    destruct (_ && _); [|done].
    destruct (py_int_of_string p1); [|done]. by destruct (py_int_of_string p2). }
  split_and!.
  - intros p q Hpq. apply on_message_by_payload. unfold normalize_payload. simpl.
    by rewrite !py_upper_strip, Hpq.
  - intros l p r Hl Hr. apply on_message_by_payload. unfold normalize_payload.
    simpl. by rewrite py_strip_padded.
  - done.
  - intros p Hp. rewrite <- Hnone. apply on_message_by_payload.
    unfold normalize_payload, py_strip. simpl.
    by rewrite py_lstrip_all_space.
Qed.

Lemma on_message_payload_blind_witness :
  _on_message (mkMqttMessage "matter/42/3/set" (Some "Toggle")) init_world
  = _on_message (mkMqttMessage "matter/42/3/set" (Some "tOGGLE")) init_world /\
  _on_message (mkMqttMessage "matter/42/3/set" (Some ("  " +:+ "on" +:+ " "))) init_world
  = _on_message (mkMqttMessage "matter/42/3/set" (Some "on")) init_world.
Proof.
  split.
  - apply (proj1 (on_message_payload_blind "matter/42/3/set" init_world)
             "Toggle" "tOGGLE" eq_refl).
  - apply (proj1 (proj2 (on_message_payload_blind "matter/42/3/set" init_world))
             "  " "on" " " eq_refl eq_refl).
Defined.

(** ** Message identifiers *)

Lemma next_ids_lookup calls msg_id i s :
  next_ids calls msg_id !! i = Some s -> s = py_str (msg_id + 1 + Z.of_nat i).
Proof.
  revert msg_id i. induction calls as [|n IH]; intros msg_id i; [done|].
  simpl. destruct i as [|i]; simpl.
  - intros [= <-]. f_equal. lia.
  - intros H%IH. subst s. f_equal. lia.
Qed.

(** X19.  The message identifiers of one [MatterWS] are fresh: the
    identifiers that successive calls of [_next_id] return are the decimal
    spellings of the successive integers after the starting value of the
    counter (so [1], [2], ... on a new object), each reads back as its
    integer, and no two of them are equal. *)
Theorem next_ids_fresh calls msg_id :
  length (next_ids calls msg_id) = calls /\
  (forall i s,
     next_ids calls msg_id !! i = Some s ->
     s = py_str (msg_id + 1 + Z.of_nat i) /\
     py_int_of_string s = Some (msg_id + 1 + Z.of_nat i)) /\
  NoDup (next_ids calls msg_id).
Proof.
  split_and!.
  - revert msg_id. induction calls as [|n IH]; intros msg_id; simpl; [done|].
    by rewrite IH.
  - intros i s ->%next_ids_lookup. by rewrite py_int_of_str.
  - apply NoDup_alt. intros i j s Hi%next_ids_lookup Hj%next_ids_lookup.
    subst s. apply py_str_inj in Hj. lia.
Qed.

Lemma next_ids_fresh_witness :
  "2" = py_str (0 + 1 + Z.of_nat 1) /\
  py_int_of_string "2" = Some (0 + 1 + Z.of_nat 1).
Proof.
  apply (proj1 (proj2 (next_ids_fresh 3 0)) 1%nat "2" eq_refl).
Defined.

(** ** The configuration *)

Lemma dict_has_nonempty items key :
  dict_has items key = true -> py_bool (PyDict items) = true.
Proof. by destruct items. Qed.

(** X20.  What [_load_config] checks.  It returns the loaded value
    itself, and only a truthy one.  For a configuration that is a
    dictionary with the keys [mqtt] and [matter_ws], both sections being
    dictionaries, it succeeds exactly when [host] and [port] are keys of
    the first and [url] is a key of the second; the values under these
    keys are not looked at.  A section that is present but null makes the
    membership test fail with a [TypeError], which is none of the errors
    the module handles as configuration errors; a section that is a string
    is tested by substring, so that sections given as strings that happen
    to contain the three words are accepted.  A missing file, an invalid
    file and an empty one give configuration errors. *)
Theorem load_config_checks :
  (forall f config,
     _load_config f = Ok config -> f = Loaded config /\ py_bool config = true) /\
  (forall items m ws,
     dict_has items "mqtt" = true ->
     dict_has items "matter_ws" = true ->
     dict_get items "mqtt" (PyDict []) = PyDict m ->
     dict_get items "matter_ws" (PyDict []) = PyDict ws ->
     (_load_config (Loaded (PyDict items)) = Ok (PyDict items) <->
      dict_has m "host" = true /\ dict_has m "port" = true /\
      dict_has ws "url" = true)) /\
  (forall items,
     dict_has items "mqtt" = true ->
     dict_has items "matter_ws" = true ->
     dict_get items "mqtt" (PyDict []) = PyNone ->
     exists e, _load_config (Loaded (PyDict items)) = Raise e /\
               exn_type e = "TypeError" /\ config_error e = false) /\
  (forall items s u,
     dict_has items "mqtt" = true ->
     dict_has items "matter_ws" = true ->
     dict_get items "mqtt" (PyDict []) = PyStr s ->
     dict_get items "matter_ws" (PyDict []) = PyStr u ->
     py_contains "host" s = true -> py_contains "port" s = true ->
     py_contains "url" u = true ->
     _load_config (Loaded (PyDict items)) = Ok (PyDict items)) /\
  (forall f e,
     (f = NoFile \/ (exists err, f = BadYaml err) \/
      exists config, f = Loaded config /\ py_bool config = false) ->
     _load_config f = Raise e -> config_error e = true).
Proof.
  split_and!.
  - intros [|err|config] c; simpl; try done.
    destruct (py_bool config) eqn:Hb; simpl; [|done].
    destruct (py_in "mqtt" config) as [[]|]; simpl; try done.
    destruct (py_in "matter_ws" config) as [[]|]; simpl; try done.
    destruct (py_get config "mqtt" (PyDict [])) as [mq|]; simpl; try done.
    destruct (py_in "host" mq) as [[]|]; simpl; try done.
    destruct (py_in "port" mq) as [[]|]; simpl; try done.
    destruct (py_get config "matter_ws" (PyDict [])) as [mw|]; simpl; try done.
    destruct (py_in "url" mw) as [[]|]; simpl; try done.
    by intros [= ->].
  - intros items m ws Hm Hw Hgm Hgw. unfold _load_config.
    rewrite (dict_has_nonempty _ _ Hm). cbn [negb py_in py_get result_bind].
    rewrite Hm, Hw, Hgm, Hgw. cbn [negb py_in result_bind].
    destruct (dict_has m "host"); cbn [negb]; [|by split; [|intros [? _]]].
    destruct (dict_has m "port"); cbn [negb result_bind];
      [|by split; [|intros (_ & ? & _)]].
    destruct (dict_has ws "url"); cbn [negb]; [done|by split; [|intros (_ & _ & ?)]].
  - intros items Hm Hw Hgm. unfold _load_config.
    rewrite (dict_has_nonempty _ _ Hm). cbn [negb py_in py_get result_bind].
    rewrite Hm, Hw, Hgm. cbn [negb py_in result_bind]. by eexists.
  - intros items s u Hm Hw Hgm Hgw Hh Hp Hu. unfold _load_config.
    rewrite (dict_has_nonempty _ _ Hm). cbn [negb py_in py_get result_bind].
    rewrite Hm, Hw, Hgm, Hgw. cbn [negb py_in result_bind].
    rewrite Hh, Hp. cbn [negb result_bind]. by rewrite Hu.
  - intros f e [->|[[err ->]|(config & -> & Hb)]]; simpl.
    + by intros [= <-].
    + by intros [= <-].
    + rewrite Hb. by intros [= <-].
Qed.

Lemma load_config_checks_witness :
  (_load_config
     (Loaded (PyDict [("mqtt", PyDict [("host", PyNone); ("port", PyInt 1883)]);
                      ("matter_ws", PyDict [("url", PyStr "ws://x")])]))
   = Ok (PyDict [("mqtt", PyDict [("host", PyNone); ("port", PyInt 1883)]);
                 ("matter_ws", PyDict [("url", PyStr "ws://x")])]) <->
   dict_has [("host", PyNone); ("port", PyInt 1883)] "host" = true /\
   dict_has [("host", PyNone); ("port", PyInt 1883)] "port" = true /\
   dict_has [("url", PyStr "ws://x")] "url" = true) /\
  (exists e,
     _load_config (Loaded (PyDict [("mqtt", PyNone); ("matter_ws", PyNone)]))
     = Raise e /\ exn_type e = "TypeError" /\ config_error e = false).
Proof.
  split.
  - apply (proj1 (proj2 load_config_checks)
             [("mqtt", PyDict [("host", PyNone); ("port", PyInt 1883)]);
              ("matter_ws", PyDict [("url", PyStr "ws://x")])]
             [("host", PyNone); ("port", PyInt 1883)]
             [("url", PyStr "ws://x")]
             eq_refl eq_refl eq_refl eq_refl).
  - apply (proj1 (proj2 (proj2 load_config_checks))
             [("mqtt", PyNone); ("matter_ws", PyNone)] eq_refl eq_refl eq_refl).
Defined.

(** ** The steady state of the refresh *)

Lemma publish_loop_values eps w :
  NoDup (endpoint_key <$> eps) ->
  forall ep, ep ∈ eps ->
    last_avail (for_each eps publish_endpoint w).2 !! endpoint_key ep
    = Some (available ep) /\
    (forall b, onoff ep = Some b ->
       last_state (for_each eps publish_endpoint w).2 !! endpoint_key ep = Some b).
Proof.
  revert w. induction eps as [|ep0 eps IH]; intros w Hnd ep Hin;
    [by apply elem_of_nil in Hin|].
  rewrite fmap_cons in Hnd. apply NoDup_cons in Hnd as [Hfresh Hnd].
  simpl. unfold bind. pose proof (publish_endpoint_ok ep0 w) as Hok.
  destruct (publish_endpoint_own_key ep0 w) as [Ha Hs].
  destruct (publish_endpoint ep0 w) as [r w1]. simpl in *. subst r.
  apply elem_of_cons in Hin as [->|Hin]; [|by apply IH].
  destruct (publish_loop_other_key eps w1 _ Hfresh) as [-> ->]. done.
Qed.

(** X21.  The steady state of the refresh.  When a refresh has published
    a snapshot in which no two records share a (node, endpoint) key, the
    next refresh, if it fetches the same snapshot, makes the fetch,
    publishes the discovery message of every record once more, in order,
    and nothing else: no availability and no state message, and the
    caches are left as they were. *)
Theorem refresh_steady_state env w nodes eps :
  (snapshot_nodes env w).1 = Ok nodes ->
  extract_all nodes = Ok eps ->
  NoDup (endpoint_key <$> eps) ->
  let w1 := (refresh_snapshot env w).2 in
  (snapshot_nodes env w1).1 = Ok nodes ->
  refresh_snapshot env w1
  = (Ok tt, set_trace (trace w1 ++ EvSnapshot :: (discovery_event <$> eps)) w1).
Proof.
  intros H1 Hex Hnd w1 H2.
  rewrite (refresh_snapshot_run env w1), H2, Hex. cbn zeta.
  destruct eps as [|ep eps]; [done|].
  rewrite publish_loop_nothing_new.
  - cbn [trace set_trace]. by rewrite <- app_assoc.
  - intros ep' Hin. cbn [last_avail last_state set_trace]. subst w1.
    rewrite (refresh_snapshot_run env w), H1, Hex. cbn zeta.
    by apply publish_loop_values.
Qed.

Lemma refresh_steady_state_witness :
  let env := env_quiet (reply_of [snapshot 5 true [("1/6/0", PyBool false)]]) in
  let w1 := (refresh_snapshot env init_world).2 in
  refresh_snapshot env w1
  = (Ok tt,
     set_trace (trace w1 ++ EvSnapshot ::
                  (discovery_event <$> [mkEndpointInfo 5 1 true (Some false)])) w1).
Proof.
  apply (refresh_steady_state
           (env_quiet (reply_of [snapshot 5 true [("1/6/0", PyBool false)]]))
           init_world
           [snapshot 5 true [("1/6/0", PyBool false)]]
           [mkEndpointInfo 5 1 true (Some false)]).
  - reflexivity.
  - vm_compute. reflexivity.
  - apply NoDup_ListNoDup. apply List.NoDup_cons; [cbv; tauto|]. apply List.NoDup_nil.
  - reflexivity.
Defined.

(** ** What follows a command that was sent *)

Lemma optimistic_publish_events cmd w :
  optimistic_publish cmd w
  = (Ok tt, set_trace (trace w ++ optimistic_events cmd) w).
Proof.
  rewrite optimistic_publish_run. unfold optimistic_events.
  destruct (str_in (action cmd) ["on"; "off"]); [done|].
  by rewrite app_nil_r, set_trace_same.
Qed.

Lemma set_onoff_with_client env node ep act timeout w :
  is_Some (client w) ->
  str_in act ["on"; "off"; "toggle"] = true ->
  set_onoff env node ep act timeout w
  = try_except (external env (EvSend node ep act timeout))
      (fun e => if is_connection_loss e
                then _reconnect_and_retry env node ep act timeout
                else raise e) w.
Proof.
  intros [h Hc] Hact. unfold set_onoff. unfold bind at 1.
  unfold ensure_connected, bind at 1, gets. rewrite Hc. cbn [ret fst snd].
  unfold bind. by rewrite Hc, Hact.
Qed.

(** X22.  What follows the send of a command.  Let the commander have a
    client and the action be valid.  When the send succeeds, the consumer
    sleeps one second and then refreshes the snapshot, and whatever the
    refresh does the turn ends normally.  When the send fails with an
    error that is not a loss of connection, the turn ends right after the
    send: there is no sleep and no refresh, so the state published
    optimistically for an on or an off stays as the last word on the state
    topic, and the caches are as they were. *)
Theorem process_command_after_send env cmd w :
  is_Some (client w) ->
  str_in (action cmd) ["on"; "off"; "toggle"] = true ->
  let send := EvSend (cmd_node_id cmd) (cmd_endpoint cmd) (action cmd)
                     DEVICE_COMMAND_TIMEOUT in
  let w1 := set_trace (trace w ++ optimistic_events cmd) w in
  (call_raises env send (length (trace w1)) = None ->
   process_command env cmd w
   = (Ok tt, (refresh_snapshot env
                (set_trace (trace w1 ++ [send; EvSleep 1]) w1)).2)) /\
  (forall e,
     call_raises env send (length (trace w1)) = Some e ->
     is_connection_loss e = false ->
     process_command env cmd w = (Ok tt, set_trace (trace w1 ++ [send]) w1)).
Proof.
  intros Hc Hact send w1.
  assert (Hc1 : is_Some (client w1)) by done.
  assert (Hrun : process_command env cmd w
                 = try_except (send_to_matter env cmd) (fun _ => ret tt) w1).
  { unfold process_command, bind. by rewrite optimistic_publish_events. }
  assert (Hsend : send_to_matter env cmd w1
                  = ((set_onoff env (cmd_node_id cmd) (cmd_endpoint cmd) (action cmd)
                        DEVICE_COMMAND_TIMEOUT ;;>
                      emit (EvSleep 1) ;;>
                      refresh_snapshot env) w1)).
  { unfold send_to_matter. unfold bind at 1, gets. cbn [fst snd].
    by destruct Hc1 as [h ->]. }
  split; [intros Hcall|intros e Hcall Hloss];
    rewrite Hrun; unfold try_except at 1; rewrite Hsend;
    unfold bind at 1; rewrite set_onoff_with_client by done;
    unfold try_except; rewrite external_run; fold send; rewrite Hcall.
  - cbn [fst snd]. unfold bind, emit, modify. cbn [fst snd trace set_trace].
    rewrite <- app_assoc. cbn [app].
    by destruct (refresh_snapshot env _) as [[[]|e] w3].
  - by rewrite Hloss.
Qed.

Lemma process_command_after_send_witness :
  process_command (env_send_fails cannot_connect) (mkMqttCommand 42 3 "on")
    connected_world
  = (Ok tt,
     set_trace [EvPublish "matter/42/3/state" "ON";
                EvSend 42 3 "on" DEVICE_COMMAND_TIMEOUT] connected_world).
Proof.
  apply (proj2 (process_command_after_send (env_send_fails cannot_connect)
                  (mkMqttCommand 42 3 "on") connected_world
                  (ex_intro _ 0%nat eq_refl) eq_refl)
           cannot_connect).
  - reflexivity.
  - reflexivity.
Defined.

(** ** The two tasks after a stop *)

(** X23.  After [stop] has completed, the guards of the two loops keep
    the tasks from doing anything: run for any number of rounds, the
    command consumer and the periodic refresh return at once, make no
    call, leave queued commands in the queue and change nothing. *)
Theorem tasks_idle_after_stop env w n :
  command_consumer_task env n (stop env w).2 = (Ok tt, (stop env w).2) /\
  periodic_refresh_task env n (stop env w).2 = (Ok tt, (stop env w).2).
Proof.
  pose proof (stop_clears_running env w) as Hr.
  destruct n as [|n]; [done|].
  by rewrite consumer_step, periodic_step, Hr.
Qed.

(** ** Further checks on concrete inputs *)

(** A topic whose device id is padded with FS is no command topic:
    [int] rejects the segment and the message is dropped. *)
Example on_message_fs_padded_topic :
  _on_message (mkMqttMessage ("matter/" +:+ String "028" "42/3/set") (Some "on"))
    init_world
  = (Ok tt, init_world).
Proof. vm_compute. reflexivity. Qed.

(** A node whose id is the string [closing transport] makes the
    extraction fail with a text that the periodic refresh takes for the
    noise of a closing transport: the task ends after its first round. *)
Example periodic_refresh_literal_noise :
  trace (periodic_refresh_task
           (env_quiet (reply_of [PyDict [("node_id", PyStr "closing transport")]]))
           3 init_world).2
  = refresh_round.
Proof. vm_compute. reflexivity. Qed.
